(** * Assignment Scheduler: slot booking and role synchronisation

    A shallow embedding of the Express route handlers of the backend
    ([backend/src/routes/users.js], which holds the users, auth and slots
    routers) over the three tables of [database/schema.sql] and
    [database/migrations/add_user_roles_table.sql].

    Conventions of the embedding.
    - A table is a finite map from its unique key to the remaining columns:
      [users] and [slots] are keyed by their primary key [id], [user_roles]
      by its [UNIQUE] column [email].  Keys are uuids; the model uses the
      [nat] whose bits they are and lets the store pick a key that is not
      yet used where the schema says [DEFAULT uuid_generate_v4()].  Where
      a handler compares an identifier of the request as text (the role
      route of the users router), the request carries the text.
    - A query is a function of the table contents.  [.eq(..)] filters,
      [.single()] succeeds on exactly one row, [.update(..)] rewrites the
      matching rows, [.delete()] removes them.  The store fails only
      through a uniqueness constraint of the schema; foreign keys hold
      because the callers are authenticated identities.  A store call
      that fails for another reason, which the handlers answer with
      status 500, is not modelled.
    - A handler takes the authenticated caller ([req.user]), the request
      and the store, and returns the response together with the new store.
    - The clock, the random source, the server's time zone and the answer
      of the meeting-provisioning service are inputs of the handlers.
    - Columns that no handler reads ([created_at], [updated_at]), the
      profile projections joined into responses and the calendar deep link
      of the booking response (derived, never stored) are not carried.
    - The triggers of the migration that copy a role from one table to the
      other are not modelled: the handlers make both writes themselves. *)

From stdpp Require Import base decidable option list gmap fin_maps strings sorting.
From Stdlib Require Import ZArith Lia Ascii.

Open Scope string_scope.
Open Scope list_scope.
Open Scope Z_scope.

(** ** Data model *)

(** [role VARCHAR(20) CHECK (role IN ('scholar', 'faculty', 'admin'))] *)
Inductive Role := scholar | faculty | admin.

Global Instance Role_eq_dec : EqDecision Role.
Proof. solve_decision. Defined.

(** [status VARCHAR(20) CHECK (status IN ('available', 'booked',
    'cancelled', 'completed'))] *)
Inductive Status := available | booked | cancelled | completed.

Global Instance Status_eq_dec : EqDecision Status.
Proof. solve_decision. Defined.

(** A row of [users] without its key [id]. *)
Record User := mkUser {
  u_email : string;
  u_name : string;
  u_picture : option string;
  u_google_id : option string;
  u_role : Role;
  u_last_login : Z
}.

Global Instance User_eq_dec : EqDecision User.
Proof. solve_decision. Defined.

(** A row of [slots] without its key [id].  [s_date] counts days,
    [s_start_time] and [s_end_time] seconds since midnight ([DATE] and
    [TIME] columns compare as these numbers do). *)
Record Slot := mkSlot {
  s_faculty_id : nat;
  s_scholar_id : option nat;
  s_date : Z;
  s_start_time : Z;
  s_end_time : Z;
  s_status : Status;
  s_notes : option string;
  s_meeting_link : option string
}.

Global Instance Slot_eq_dec : EqDecision Slot.
Proof. solve_decision. Defined.

(** The persistent store. *)
Record DB := mkDB {
  users : gmap nat User;
  user_roles : gmap string Role;
  slots : gmap nat Slot
}.

Definition empty_db : DB := mkDB ∅ ∅ ∅.

Definition with_users (f : gmap nat User → gmap nat User) (db : DB) : DB :=
  mkDB (f (users db)) (user_roles db) (slots db).
Definition with_user_roles (f : gmap string Role → gmap string Role) (db : DB) : DB :=
  mkDB (users db) (f (user_roles db)) (slots db).
Definition with_slots (f : gmap nat Slot → gmap nat Slot) (db : DB) : DB :=
  mkDB (users db) (user_roles db) (f (slots db)).

(** [req.user], as left by the authentication middleware; [req.user.id]
    is the text [uuid_out au_id]. *)
Record AuthUser := mkAuthUser {
  au_id : nat;
  au_email : string;
  au_name : string;
  au_role : Role
}.

(** The failures of the specification's taxonomy and their HTTP status. *)
Inductive Failure :=
| InvalidInput | InvalidRole | InvalidRange
| Forbidden | NotFound | SlotUnavailable | SlotConflict | InternalError.

Global Instance Failure_eq_dec : EqDecision Failure.
Proof. solve_decision. Defined.

Definition http_status (e : Failure) : nat :=
  match e with
  | InvalidInput | InvalidRole | InvalidRange => 400
  | Forbidden => 403
  | NotFound | SlotUnavailable => 404
  | SlotConflict => 409
  | InternalError => 500
  end.

Inductive Response (A : Type) :=
| Ok (a : A)
| Err (e : Failure).
Arguments Ok {A} a.
Arguments Err {A} e.

Global Instance Response_eq_dec {A} `{EqDecision A} : EqDecision (Response A).
Proof. solve_decision. Defined.

Definition is_ok {A} (r : Response A) : bool :=
  match r with Ok _ => true | Err _ => false end.

(** ** Store queries *)

(** [.select(..)] with the filter [P], closed by [.single()]: the row when
    exactly one row matches, nothing (PostgREST error PGRST116) otherwise. *)
Definition select_single {K A} `{Countable K} (P : K * A → Prop)
    `{∀ x, Decision (P x)} (t : gmap K A) : option (K * A) :=
  match map_to_list (filter P t) with
  | [row] => Some row
  | _ => None
  end.

(** The key the store gives to an inserted row. *)
Definition new_id {A} (t : gmap nat A) : nat := fresh (dom t).

(** ** Identifiers as text

    The columns [id], [faculty_id] and [scholar_id] are of type [UUID]: a
    key [k] of the store stands for the uuid whose 128 bits are the number
    [k].  Requests and responses carry identifiers as text. *)

(** The value of a hexadecimal digit, of either case. *)
Definition hex_value (c : ascii) : option N :=
  let n := N_of_ascii c in
  if decide (48 <= n <= 57)%N then Some (n - 48)%N
  else if decide (97 <= n <= 102)%N then Some (n - 87)%N
  else if decide (65 <= n <= 70)%N then Some (n - 55)%N
  else None.

(** The store reads [remaining] bytes, from the [i]-th on, of two digits
    each; a hyphen may follow every second byte but the last. *)
Fixpoint uuid_bytes (remaining i : nat) (value : N) (src : list ascii) :
    option (N * list ascii) :=
  match remaining with
  | O => Some (value, src)
  | S remaining' =>
    match src with
    | hi :: lo :: rest =>
      match hex_value hi, hex_value lo with
      | Some h, Some l =>
        uuid_bytes remaining' (S i) (value * 256 + h * 16 + l)%N
          match rest with
          | "-"%char :: rest' =>
            if Nat.odd i && bool_decide (i < 15)%nat then rest' else rest
          | _ => rest
          end
      | _, _ => None
      end
    | _ => None
    end
  end.

(** A text read as a uuid, as the store does when a text is compared with
    a [UUID] column: 32 hexadecimal digits of either case, a hyphen allowed
    after each group of four, the whole allowed in braces.  Any other text
    is refused and the query fails. *)
Definition uuid_in (text : string) : option nat :=
  let src := String.list_ascii_of_string text in
  let '(braces, src) :=
    match src with
    | "{"%char :: rest => (true, rest)
    | _ => (false, src)
    end in
  match uuid_bytes 16 0 0 src with
  | Some (value, rest) =>
    if decide (rest = if braces then ["}"%char] else []) then Some (N.to_nat value)
    else None
  | None => None
  end.

Definition hex_digit (d : N) : ascii :=
  ascii_of_N (if decide (d < 10)%N then d + 48 else d + 87).

(** A uuid as the store prints it, and so as it reaches [user.id] and
    [req.user.id]: 32 lowercase hexadecimal digits in groups of 8, 4, 4, 4
    and 12. *)
Definition uuid_out (k : nat) : string :=
  let digit (j : nat) :=
    hex_digit ((N.of_nat k `div` 16 ^ (31 - N.of_nat j)) `mod` 16)%N in
  String.string_of_list_ascii
    (mjoin ((λ j, (if bool_decide (j ∈ [8; 12; 16; 20]%nat) then ["-"%char] else [])
                  ++ [digit j]) <$> seq 0 32)).

(** [.eq('id', text)] closed by [.single()]. *)
Definition select_by_id {A} (text : string) (t : gmap nat A) : option (nat * A) :=
  id ← uuid_in text; select_single (λ row, row.1 = id) t.

(** [.update(..).eq('id', text)] *)
Definition update_by_id {A} (text : string) (f : A → A) (t : gmap nat A) : gmap nat A :=
  match uuid_in text with
  | Some id => alter f id t
  | None => t
  end.

(** ** Authorization *)

(** Modelled from the spec: [requireRole] of [middleware/auth.js] is not
    among the sources.  Section 4.2: the check passes if the identity's
    current role is in the required role set, else fails with Forbidden. *)
Definition requireRole (allowed : list Role) (caller : AuthUser) : bool :=
  bool_decide (au_role caller ∈ allowed).

Definition requiring {A} (allowed : list Role) (caller : AuthUser)
    (handler : DB → Response A * DB) (db : DB) : Response A * DB :=
  if requireRole allowed caller then handler db else (Err Forbidden, db).

(** ** Role store: the users router *)

(** [['scholar', 'faculty', 'admin'].includes(role)] and the value it names. *)
Definition role_of_string (role : string) : option Role :=
  if decide (role = "scholar") then Some scholar
  else if decide (role = "faculty") then Some faculty
  else if decide (role = "admin") then Some admin
  else None.

Definition set_role (r : Role) (u : User) : User :=
  mkUser (u_email u) (u_name u) (u_picture u) (u_google_id u) r (u_last_login u).

(** [.update({ role }).eq('email', email)] on one row. *)
Definition sync_role (email : string) (r : Role) (u : User) : User :=
  if decide (u_email u = email) then set_role r u else u.

(** [router.patch('/:userId/role')], handler body.  [userId] is the text
    in the path.  The guard [userId === req.user.id] compares two texts;
    the two queries [.eq('id', userId)] compare uuids. *)
Definition updateUserRole (caller : AuthUser) (userId : string) (role : string)
    (db : DB) : Response (nat * User) * DB :=
  match role_of_string role with
  | None => (Err InvalidRole, db)
  | Some r =>
    (* Prevent changing own role *)
    if decide (userId = uuid_out (au_id caller)) then (Err Forbidden, db)
    else
      (* Get user email first *)
      match select_by_id userId (users db) with
      | None => (Err NotFound, db)
      | Some (_, targetUser) =>
        (* Update role in user_roles table (creates if not exists) *)
        let db1 := with_user_roles (<[u_email targetUser := r]>) db in
        (* Sync role back to users table for consistency *)
        let db2 := with_users (update_by_id userId (set_role r)) db1 in
        match select_by_id userId (users db2) with
        | Some user => (Ok user, db2)
        | None => (Err InternalError, db2)
        end
      end
  end.

(** [router.post('/roles/email')], handler body.  The response carries the
    upserted assignment and whether an identity was synchronised. *)
Definition setRoleByEmail (caller : AuthUser) (email role : string)
    (db : DB) : Response (string * Role * bool) * DB :=
  if bool_decide (email = "") || bool_decide (role = "") then (Err InvalidInput, db)
  else
    match role_of_string role with
    | None => (Err InvalidRole, db)
    | Some r =>
      (* Prevent changing own role via email *)
      if decide (email = au_email caller) then (Err Forbidden, db)
      else
        (* Upsert role in user_roles table *)
        let db1 := with_user_roles (<[email := r]>) db in
        (* If user exists, sync role to users table *)
        match select_single (λ row : nat * User, u_email row.2 = email) (users db1) with
        | Some _ => (Ok (email, r, true), with_users (fmap (sync_role email r)) db1)
        | None => (Ok (email, r, false), db1)
        end
    end.

(** The two routes behind [requireRole('admin')]. *)
Definition route_updateUserRole (caller : AuthUser) (userId : string) (role : string) :
    DB → Response (nat * User) * DB :=
  requiring [admin] caller (updateUserRole caller userId role).

Definition route_setRoleByEmail (caller : AuthUser) (email role : string) :
    DB → Response (string * Role * bool) * DB :=
  requiring [admin] caller (setRoleByEmail caller email role).

(** ** First login: the auth router *)

(** The payload of the verified Google ID token. *)
Record GooglePayload := mkPayload {
  g_email : string;
  g_name : string;
  g_picture : option string;
  g_sub : string
}.

(** [INSERT INTO user_roles]: refused when the email is already present
    ([email VARCHAR(255) UNIQUE]). *)
Definition roles_insert (email : string) (r : Role)
    (t : gmap string Role) : option (gmap string Role) :=
  match t !! email with
  | Some _ => None
  | None => Some (<[email := r]> t)
  end.

(** A row other than [self] already holds this email or this Google id
    ([email VARCHAR(255) UNIQUE], [google_id VARCHAR(255) UNIQUE]). *)
Definition users_clash (self : option nat) (u : User) (t : gmap nat User) : Prop :=
  map_Exists (λ id v, Some id ≠ self ∧
    (u_email v = u_email u ∨
     (is_Some (u_google_id u) ∧ u_google_id v = u_google_id u))) t.

(** [INSERT INTO users], returning the inserted row. *)
Definition users_insert (u : User) (t : gmap nat User) : option (nat * gmap nat User) :=
  if decide (users_clash None u t) then None
  else let id := new_id t in Some (id, <[id := u]> t).

(** [UPDATE users SET .. WHERE id = ..], returning the updated row. *)
Definition users_update (id : nat) (u : User) (t : gmap nat User) : option (gmap nat User) :=
  if decide (users_clash (Some id) u t) then None
  else Some (<[id := u]> t).

(** [router.post('/google')], after [googleClient.verifyIdToken] has
    returned the ticket whose payload is [p]. *)
Definition googleLogin (now : Z) (p : GooglePayload) (db : DB) :
    Response (nat * User) * DB :=
  let email := g_email p in
  (* Get role from user_roles table (defaults to 'scholar' if not found) *)
  let roleData := select_single (λ row : string * Role, row.1 = email) (user_roles db) in
  let '(userRole, db1) :=
    match roleData with
    | Some (_, r) => (r, db)
    | None =>
      (* Create default scholar role for new user; the error is not read *)
      (scholar,
       with_user_roles (λ t, default t (roles_insert email scholar t)) db)
    end in
  (* Check if user exists *)
  match select_single (λ row : nat * User, u_email row.2 = email) (users db1) with
  | None =>
    let row := mkUser email (g_name p) (g_picture p) (Some (g_sub p)) userRole now in
    match users_insert row (users db1) with
    | Some (id, t) => (Ok (id, row), with_users (λ _, t) db1)
    | None => (Err InternalError, db1)
    end
  | Some (id, user) =>
    (* Update user info and sync role from user_roles table; a picture
       that the token lacks is undefined, and the update leaves out what
       is undefined: the column keeps its value *)
    let picture := match g_picture p with
                   | Some url => Some url
                   | None => u_picture user
                   end in
    let row := mkUser (u_email user) (g_name p) picture (Some (g_sub p)) userRole now in
    match users_update id row (users db1) with
    | Some t => (Ok (id, row), with_users (λ _, t) db1)
    | None => (Err InternalError, db1)
    end
  end.

(** ** Slots: the slots router *)

(** The body of [POST /]: three instants (milliseconds since the epoch),
    as [isISO8601().toDate()] leaves them. *)
Record SlotRequest := mkSlotRequest {
  start_time : Z;
  end_time : Z;
  date : Z
}.

(** [new Date(t).toTimeString().split(' ')[0]]: the time of day of [t] on
    the server's clock, in seconds; [tz t] is the offset (in milliseconds)
    of the server's zone from UTC at [t]. *)
Definition toTimeOnly (tz : Z → Z) (t : Z) : Z := ((t + tz t) `div` 1000) `mod` 86400.

(** [new Date(t).toISOString().split('T')[0]]: the UTC calendar day of [t]. *)
Definition toDateOnly (t : Z) : Z := t `div` 86400000.

(** The [.or(..)] filter of the overlap query:
    [and(start_time.lte.S,end_time.gt.S)],
    [and(start_time.lt.E,end_time.gte.E)],
    [and(start_time.gte.S,end_time.lte.E)]. *)
Definition overlap_filter (startTimeOnly endTimeOnly : Z) (s : Slot) : Prop :=
  (s_start_time s <= startTimeOnly ∧ s_end_time s > startTimeOnly) ∨
  (s_start_time s < endTimeOnly ∧ s_end_time s >= endTimeOnly) ∨
  (s_start_time s >= startTimeOnly ∧ s_end_time s <= endTimeOnly).

Global Instance overlap_filter_dec S E s : Decision (overlap_filter S E s).
Proof. unfold overlap_filter. apply _. Defined.

(** The rows the overlap query returns. *)
Definition overlapping_slots (faculty_id : nat) (dateOnly startTimeOnly endTimeOnly : Z)
    (t : gmap nat Slot) : gmap nat Slot :=
  filter (λ row : nat * Slot,
            s_faculty_id row.2 = faculty_id ∧ s_date row.2 = dateOnly ∧
            overlap_filter startTimeOnly endTimeOnly row.2) t.

(** [router.post('/')], handler body. *)
Definition createSlot (tz : Z → Z) (caller : AuthUser) (req : SlotRequest)
    (db : DB) : Response (nat * Slot) * DB :=
  let faculty_id := au_id caller in
  (* Extract time portions from datetime strings *)
  let startTimeOnly := toTimeOnly tz (start_time req) in
  let endTimeOnly := toTimeOnly tz (end_time req) in
  let dateOnly := toDateOnly (date req) in
  (* Validate time range *)
  if bool_decide (end_time req ≤ start_time req) then (Err InvalidRange, db)
  else
    (* Check for overlapping slots *)
    let overlapping :=
      overlapping_slots faculty_id dateOnly startTimeOnly endTimeOnly (slots db) in
    if bool_decide (0 < size overlapping)%nat then (Err SlotConflict, db)
    else
      let slot := mkSlot faculty_id None dateOnly startTimeOnly endTimeOnly
                         available None None in
      let id := new_id (slots db) in
      (Ok (id, slot), with_slots (<[id := slot]>) db).

(** [.order('date').order('start_time')] *)
Definition slot_order (a b : nat * Slot) : Prop :=
  s_date a.2 < s_date b.2 ∨
  (s_date a.2 = s_date b.2 ∧ s_start_time a.2 ≤ s_start_time b.2).

Global Instance slot_order_dec : RelDecision slot_order.
Proof. intros a b. unfold slot_order. apply _. Defined.

Global Instance slot_order_total : Total slot_order.
Proof. intros a b. unfold slot_order. lia. Qed.

Global Instance slot_order_trans : Transitive slot_order.
Proof. intros a b c. unfold slot_order. lia. Qed.

(** [router.get('/available')]; [faculty_id] and [date] are the optional
    query parameters (absent or empty: no filter). *)
Definition listAvailableSlots (now : Z) (faculty_id : option nat) (date : option Z)
    (db : DB) : list (nat * Slot) :=
  let query :=
    filter (λ row : nat * Slot,
              s_status row.2 = available ∧ toDateOnly now ≤ s_date row.2) (slots db) in
  let query :=
    match faculty_id with
    | Some f => filter (λ row : nat * Slot, s_faculty_id row.2 = f) query
    | None => query
    end in
  let query :=
    match date with
    | Some d => filter (λ row : nat * Slot, s_date row.2 = d) query
    | None => query
    end in
  merge_sort slot_order (map_to_list query).

(** *** Meeting link *)

Definition chars : string := "abcdefghijklmnopqrstuvwxyz".

(** A number is a binary64 value: a product is rounded to 53 significant
    bits, to the nearest value and to the even one of two nearest.  [x]
    counts units of [2^-53]. *)
Definition round_binary64 (x : Z) : Z :=
  let e := Z.log2 x - 52 in
  if decide (e <= 0) then x
  else
    let q := x `div` 2 ^ e in
    let r := x `mod` 2 ^ e in
    let half := 2 ^ (e - 1) in
    if decide (r < half) then q * 2 ^ e
    else if decide (half < r) then (q + 1) * 2 ^ e
    else if Z.even q then q * 2 ^ e
    else (q + 1) * 2 ^ e.

(** [Math.floor(Math.random() * n)]: [Math.random()] is [m / 2^53] for an
    integer [0 ≤ m < 2^53], the [k]-th draw taking [m] from [rnd k]; the
    product is rounded before [Math.floor] takes its integer part. *)
Definition random_below (rnd : nat → Z) (k : nat) (n : Z) : Z :=
  round_binary64 ((rnd k `mod` 2 ^ 53) * n) `div` 2 ^ 53.

(** [chars[i]] appended to a string: the character, or the text
    [undefined] out of range. *)
Definition char_at (i : Z) : string :=
  match String.get (Z.to_nat i) chars with
  | Some c => String c ""
  | None => "undefined"
  end.

(** The inner loop: [length] characters appended to [segment], from the
    [k]-th draw on. *)
Fixpoint fill_segment (rnd : nat → Z) (length k : nat) (segment : string) : string :=
  match length with
  | O => segment
  | S length' =>
    fill_segment rnd length' (S k)
      (segment +:+ char_at (random_below rnd k (Z.of_nat (String.length chars))))
  end.

(** The outer loop [for (let i = 0; i < 3; i++)], with [remaining]
    iterations to go from [i] on; [k] draws have been taken. *)
Fixpoint fill_segments (rnd : nat → Z) (remaining i k : nat) (segments : list string) :
    list string :=
  match remaining with
  | O => segments
  | S remaining' =>
    let length := if decide (i = 1%nat) then 4%nat else 3%nat in
    fill_segments rnd remaining' (S i) (k + length)
      (segments ++ [fill_segment rnd length k ""])
  end.

(** [segments.join('-')] *)
Fixpoint join (sep : string) (segments : list string) : string :=
  match segments with
  | [] => ""
  | [s] => s
  | s :: rest => s +:+ sep +:+ join sep rest
  end.

(** Fallback: a random meet code (abc-defg-hij format). *)
Definition generateFallbackMeetLink (rnd : nat → Z) : string :=
  "https://meet.google.com/" +:+ join "-" (fill_segments rnd 3 0 0 []).

(** What [createCalendarEventWithMeet] did: it threw, or it returned an
    event whose [meetLink] may be undefined. *)
Inductive Provisioning :=
| ProvisionFailed
| Provisioned (meetLink : option string).

(** [createRealGoogleMeet]: the link of the created event, the fallback
    link when the call failed. *)
Definition createRealGoogleMeet (outcome : Provisioning) (rnd : nat → Z) : option string :=
  match outcome with
  | Provisioned meetLink => meetLink
  | ProvisionFailed => Some (generateFallbackMeetLink rnd)
  end.

(** *** Booking *)

(** [notes || null] *)
Definition notes_or_null (notes : option string) : option string :=
  match notes with
  | Some "" => None
  | n => n
  end.

(** The [.update({ status: 'booked', scholar_id, notes, meeting_link })]
    of the booking; an undefined [meeting_link] is not sent, which leaves
    the column as it is. *)
Definition book_update (scholar_id : nat) (notes meetingLink : option string)
    (s : Slot) : Slot :=
  mkSlot (s_faculty_id s) (Some scholar_id) (s_date s) (s_start_time s) (s_end_time s)
         booked (notes_or_null notes)
         (match meetingLink with Some l => Some l | None => s_meeting_link s end).

Record BookRequest := mkBookRequest {
  b_caller : AuthUser;
  b_slotId : nat;
  b_notes : option string;
  b_outcome : Provisioning;
  b_rnd : nat → Z
}.

(** [router.post('/:slotId/book')], handler body.  The response carries
    the re-fetched slot and the meeting link. *)
Definition bookSlot (r : BookRequest) (db : DB) :
    Response (nat * Slot * option string) * DB :=
  let slotId := b_slotId r in
  (* Check if slot exists and is available *)
  match select_single (λ row : nat * Slot,
                         row.1 = slotId ∧ s_status row.2 = available) (slots db) with
  | None => (Err SlotUnavailable, db)
  | Some _ =>
    let meetingLink := createRealGoogleMeet (b_outcome r) (b_rnd r) in
    (* Update slot status to booked with meeting link *)
    let db1 :=
      with_slots (alter (book_update (au_id (b_caller r)) (b_notes r) meetingLink) slotId)
                 db in
    (* Fetch updated slot with relations *)
    match select_single (λ row : nat * Slot, row.1 = slotId) (slots db1) with
    | None => (Err InternalError, db1)
    | Some bookedSlot => (Ok (bookedSlot, meetingLink), db1)
    end
  end.

(** *** Booking, one store round trip at a time

    The handler suspends at every [await]; another request may run
    between two of its store calls.  [BookPc] records where a request
    stands, with what it holds in local variables. *)
Inductive BookPc :=
| AtFetch
| AtProvision
| AtUpdate (meetingLink : option string)
| AtRefetch (meetingLink : option string)
| Finished (resp : Response (nat * Slot * option string)).

Definition book_step (r : BookRequest) (pc : BookPc) (db : DB) : BookPc * DB :=
  let slotId := b_slotId r in
  match pc with
  | AtFetch =>
    match select_single (λ row : nat * Slot,
                           row.1 = slotId ∧ s_status row.2 = available) (slots db) with
    | None => (Finished (Err SlotUnavailable), db)
    | Some _ => (AtProvision, db)
    end
  | AtProvision => (AtUpdate (createRealGoogleMeet (b_outcome r) (b_rnd r)), db)
  | AtUpdate meetingLink =>
    (AtRefetch meetingLink,
     with_slots (alter (book_update (au_id (b_caller r)) (b_notes r) meetingLink) slotId)
                db)
  | AtRefetch meetingLink =>
    match select_single (λ row : nat * Slot, row.1 = slotId) (slots db) with
    | None => (Finished (Err InternalError), db)
    | Some bookedSlot => (Finished (Ok (bookedSlot, meetingLink)), db)
    end
  | Finished resp => (Finished resp, db)
  end.

(** Requests in flight, and the store they share. *)
Definition Pool : Type := list (BookRequest * BookPc) * DB.

Definition start (rs : list BookRequest) (db : DB) : Pool :=
  ((λ r, (r, AtFetch)) <$> rs, db).

(** The scheduler resumes request [i] for one step. *)
Definition resume (i : nat) (st : Pool) : Pool :=
  match st.1 !! i with
  | Some (r, pc) =>
    let '(pc', db') := book_step r pc st.2 in (<[i := (r, pc')]> st.1, db')
  | None => st
  end.

Definition run_schedule (schedule : list nat) (st : Pool) : Pool :=
  foldl (λ st i, resume i st) st schedule.

(** The responses sent so far, one entry per request. *)
Definition responses (st : Pool) : list (option (Response (nat * Slot * option string))) :=
  (λ p : BookRequest * BookPc,
     match p.2 with Finished resp => Some resp | _ => None end) <$> st.1.

(** One request after the other, each run to its response. *)
Fixpoint book_in_turn (rs : list BookRequest) (db : DB) :
    list (Response (nat * Slot * option string)) * DB :=
  match rs with
  | [] => ([], db)
  | r :: rs' =>
    let '(resp, db1) := bookSlot r db in
    let '(resps, db2) := book_in_turn rs' db1 in
    (resp :: resps, db2)
  end.

(** *** Deletion *)

(** [router.delete('/:slotId')], handler body. *)
Definition deleteSlot (caller : AuthUser) (slotId : nat) (db : DB) : Response unit * DB :=
  (* Check if slot belongs to faculty and is not booked *)
  match select_single (λ row : nat * Slot,
                         row.1 = slotId ∧ s_faculty_id row.2 = au_id caller) (slots db) with
  | None => (Err NotFound, db)
  | Some (_, slot) =>
    if decide (s_status slot = booked) then (Err Forbidden, db)
    else (Ok (), with_slots (delete slotId) db)
  end.

(** ** The service as a whole *)

Inductive Request :=
| Login (now : Z) (p : GooglePayload)
| UpdateUserRole (caller : AuthUser) (userId : string) (role : string)
| SetRoleByEmail (caller : AuthUser) (email role : string)
| CreateSlot (caller : AuthUser) (req : SlotRequest)
| BookSlot (r : BookRequest)
| DeleteSlot (caller : AuthUser) (slotId : nat).

(** The store after a request has been served, role check included. *)
Definition serve (tz : Z → Z) (rq : Request) (db : DB) : DB :=
  match rq with
  | Login now p => (googleLogin now p db).2
  | UpdateUserRole caller userId role => (route_updateUserRole caller userId role db).2
  | SetRoleByEmail caller email role => (route_setRoleByEmail caller email role db).2
  | CreateSlot caller req => (requiring [faculty; admin] caller (createSlot tz caller req) db).2
  | BookSlot r => (requiring [scholar] (b_caller r) (bookSlot r) db).2
  | DeleteSlot caller slotId => (requiring [faculty; admin] caller (deleteSlot caller slotId) db).2
  end.

Definition serve_all (tz : Z → Z) (rqs : list Request) (db : DB) : DB :=
  foldl (λ db rq, serve tz rq db) db rqs.

(** How many requests have been answered with success, and how many with
    the failure [e]. *)
Definition succeeded (st : Pool) : nat :=
  length (filter (λ resp, is_ok <$> resp = Some true) (responses st)).
Definition failed_with (e : Failure) (st : Pool) : nat :=
  length (filter (λ resp, resp = Some (Err e)) (responses st)).

(** The scheduler never lets go of a request before its response: request
    0 runs its four steps, then request 1, and so on. *)
Definition in_turn (n : nat) : list nat :=
  mjoin ((λ i, replicate 4 i) <$> seq 0 n).

(** ** Further handlers of the slots and users routers *)

(** [router.get('/my-bookings')]: the caller's bookings, by date and start
    time. *)
Definition myBookings (caller : AuthUser) (db : DB) : list (nat * Slot) :=
  merge_sort slot_order
    (map_to_list (filter (λ row : nat * Slot, s_scholar_id row.2 = Some (au_id caller))
                         (slots db))).

(** [router.get('/my-slots')]: the caller's own slots, by date and start
    time. *)
Definition mySlots (caller : AuthUser) (db : DB) : list (nat * Slot) :=
  merge_sort slot_order
    (map_to_list (filter (λ row : nat * Slot, s_faculty_id row.2 = au_id caller)
                         (slots db))).

(** A row of [select('id, name, email, picture')]. *)
Record Profile := mkProfile {
  p_id : nat;
  p_name : string;
  p_email : string;
  p_picture : option string
}.

Global Instance Profile_eq_dec : EqDecision Profile.
Proof. solve_decision. Defined.

Definition profile_of (row : nat * User) : Profile :=
  mkProfile row.1 (u_name row.2) (u_email row.2) (u_picture row.2).

(** [.order('name')]; [name_le] is the order of the store's collation on
    names. *)
Definition by_name (name_le : relation string) : relation Profile :=
  λ a b, name_le (p_name a) (p_name b).

Global Instance by_name_dec name_le `{!RelDecision name_le} : RelDecision (by_name name_le).
Proof. intros a b. unfold by_name. apply _. Defined.

(** [router.get('/faculties')]: the profiles of the users whose role is
    faculty, ordered by name. *)
Definition listFaculties (name_le : relation string) `{!RelDecision name_le}
    (db : DB) : list Profile :=
  merge_sort (by_name name_le)
    (profile_of <$>
       map_to_list (filter (λ row : nat * User, u_role row.2 = faculty) (users db))).

(** ** The pages that call the slots router *)

(** [grouped[slot.date].push(slot)], creating the group of the date first
    when [!grouped[slot.date]]; the keys of the object, dates written
    [YYYY-MM-DD] and so no array indices, keep the order in which they
    were added. *)
Fixpoint push_group (d : Z) (slot : nat * Slot) (grouped : list (Z * list (nat * Slot))) :
    list (Z * list (nat * Slot)) :=
  match grouped with
  | [] => [(d, [slot])]
  | (d', group) :: rest =>
    if decide (d' = d) then (d', group ++ [slot]) :: rest
    else (d', group) :: push_group d slot rest
  end.

(** [groupSlotsByDate] of the AvailableSlots page. *)
Definition groupSlotsByDate (slots : list (nat * Slot)) : list (Z * list (nat * Slot)) :=
  foldl (λ grouped slot, push_group (s_date slot.2) slot grouped) [] slots.

(** The form of the FacultySlots page: a calendar day and two times of
    day, in minutes ([input type="date"], [input type="time"]). *)
Record SlotForm := mkSlotForm {
  form_date : Z;
  form_start_time : Z;
  form_end_time : Z
}.

(** [handleCreateSlot] posts [date], [`${date}T${start_time}:00`] and
    [`${date}T${end_time}:00`].  The server reads the first as midnight UTC
    of the day and the other two as wall-clock times in its own zone: the
    instant [t] whose local reading [t + tz t] is that wall-clock time. *)
Definition posted_by_form (tz : Z → Z) (form : SlotForm) (req : SlotRequest) : Prop :=
  date req = form_date form * 86400000 ∧
  start_time req + tz (start_time req)
  = form_date form * 86400000 + form_start_time form * 60000 ∧
  end_time req + tz (end_time req)
  = form_date form * 86400000 + form_end_time form * 60000.

(** ** Properties in the specification's words *)

(** The three-way overlap condition: the new slot's start falls inside the
    existing slot, the new slot's end falls inside it, or the new slot
    fully contains it. *)
Definition three_way_overlap (newStart newEnd : Z) (existing : Slot) : Prop :=
  (s_start_time existing <= newStart < s_end_time existing) ∨
  (s_start_time existing < newEnd <= s_end_time existing) ∨
  (newStart <= s_start_time existing ∧ s_end_time existing <= newEnd).

(** The half-open intervals [[start, end)] of two slots share no instant. *)
Definition disjoint_intervals (a b : Slot) : Prop :=
  ∀ t : Z, ¬ (s_start_time a <= t < s_end_time a ∧ s_start_time b <= t < s_end_time b).

(** No two slots of one faculty on one date overlap. *)
Definition overlap_free (t : gmap nat Slot) : Prop :=
  ∀ i j a b, t !! i = Some a → t !! j = Some b → i ≠ j →
    s_faculty_id a = s_faculty_id b → s_date a = s_date b →
    disjoint_intervals a b.

(** Some stored slot of the faculty on the date, whatever its status,
    matches the three-way condition against the new interval. *)
Definition conflicting (faculty_id : nat) (dateOnly newStart newEnd : Z)
    (t : gmap nat Slot) : Prop :=
  ∃ id s, t !! id = Some s ∧ s_faculty_id s = faculty_id ∧ s_date s = dateOnly ∧
          three_way_overlap newStart newEnd s.

(** A lowercase letter, [a] to [z]. *)
Definition is_lowercase (c : ascii) : Prop := (97 <= N_of_ascii c <= 122)%N.

(** A segment of [n] lowercase letters. *)
Definition lowercase_segment (n : nat) (seg : string) : Prop :=
  String.length seg = n ∧ Forall is_lowercase (String.list_ascii_of_string seg).

(** [https://meet.google.com/] followed by three hyphen-separated segments
    of lowercase letters, of lengths 3, 4 and 3. *)
Definition fallback_link_form (link : string) : Prop :=
  ∃ a b c, link = "https://meet.google.com/" +:+ a +:+ "-" +:+ b +:+ "-" +:+ c ∧
           lowercase_segment 3 a ∧ lowercase_segment 4 b ∧ lowercase_segment 3 c.

(** [email VARCHAR(255) UNIQUE] on [users]: two rows with one email are one
    row. *)
Definition emails_unique (t : gmap nat User) : Prop :=
  map_Forall (λ i u, map_Forall (λ j v, u_email u = u_email v → i = j) t) t.

(** For every email that has both an Identity and a RoleAssignment, the
    Identity's role is the RoleAssignment's role. *)
Definition roles_in_sync (db : DB) : Prop :=
  map_Forall (λ _ u, ∀ r, user_roles db !! u_email u = Some r → u_role u = r) (users db).

Global Instance roles_in_sync_dec db : Decision (roles_in_sync db).
Proof.
  apply map_Forall_dec. intros _ u.
  destruct (user_roles db !! u_email u) as [r|].
  - destruct (decide (u_role u = r)) as [Heq|Hne].
    + left. by intros r' [= <-].
    + right. intros Hall. by apply Hne, Hall.
  - left. by intros r' [=].
Defined.

(** Every Identity has a RoleAssignment. *)
Definition users_have_roles (db : DB) : Prop :=
  map_Forall (λ _ u, is_Some (user_roles db !! u_email u)) (users db).

(** What the role stores satisfy between two requests. *)
Definition store_invariant (db : DB) : Prop :=
  emails_unique (users db) ∧ users_have_roles db ∧ roles_in_sync db.

(** What the handlers leave in a stored slot: it is available and carries
    no scholar, notes or link, or it is booked by some scholar; its times
    are times of day in seconds. *)
Definition slot_wellformed (s : Slot) : Prop :=
  ((s_status s = available ∧ s_scholar_id s = None ∧ s_notes s = None ∧
    s_meeting_link s = None) ∨
   (s_status s = booked ∧ is_Some (s_scholar_id s))) ∧
  0 <= s_start_time s < 86400 ∧ 0 <= s_end_time s < 86400.


(** ** Concrete stores and requests *)

Definition utc : Z → Z := λ _, 0.

Definition root : AuthUser := mkAuthUser 1 "root@x.com" "Root" admin.
Definition fac : AuthUser := mkAuthUser 2 "f@x.com" "F" faculty.
Definition sch : AuthUser := mkAuthUser 3 "s@x.com" "S" scholar.
Definition sch2 : AuthUser := mkAuthUser 4 "s2@x.com" "S2" scholar.

Definition db_people : DB :=
  mkDB {[ 1%nat := mkUser "root@x.com" "Root" None (Some "g-root") admin 0;
          2%nat := mkUser "f@x.com" "F" None (Some "g-f") faculty 0;
          3%nat := mkUser "s@x.com" "S" None (Some "g-s") scholar 0;
          4%nat := mkUser "s2@x.com" "S2" None (Some "g-s2") scholar 0 ]}
       {[ "root@x.com" := admin; "f@x.com" := faculty;
          "s@x.com" := scholar; "s2@x.com" := scholar ]}
       ∅.

(** 2025-03-01T00:00:00Z, and an hour, in milliseconds. *)
Definition day0 : Z := 1740787200000.
Definition hour : Z := 3600000.

Definition slot_9_10 : SlotRequest := mkSlotRequest (day0 + 9 * hour) (day0 + 10 * hour) day0.
Definition slot_930_1030 : SlotRequest :=
  mkSlotRequest (day0 + 9 * hour + 1800000) (day0 + 10 * hour + 1800000) day0.
Definition slot_11_12 : SlotRequest := mkSlotRequest (day0 + 11 * hour) (day0 + 12 * hour) day0.

(** The store after F has published 09:00-10:00 (slot 0). *)
Definition db_one_slot : DB := serve utc (CreateSlot fac slot_9_10) db_people.

(** The same store after S has booked slot 0. *)
Definition book_s_0 : BookRequest :=
  mkBookRequest sch 0 (Some "demo")
    (Provisioned (Some "https://meet.google.com/abc-defg-hij")) (λ _, 0).
Definition book_s2_0 : BookRequest :=
  mkBookRequest sch2 0 None ProvisionFailed (λ k, Z.of_nat k * 2 ^ 50).
Definition db_booked : DB := serve utc (BookSlot book_s_0) db_one_slot.

(** Slot 0 of F, cancelled by an administrative transition. *)
Definition db_cancelled : DB :=
  mkDB (users db_people) (user_roles db_people)
       {[ 0%nat := mkSlot 2 None 20148 32400 36000 cancelled None None ]}.

(** F publishes 09:00-10:00, then asks for 09:30-10:30 and 11:00-12:00. *)
Definition three_creations : list Request :=
  [CreateSlot fac slot_9_10; CreateSlot fac slot_930_1030; CreateSlot fac slot_11_12].

(** A store with a past available slot, a booked one, and upcoming
    available ones of two faculties; today is day 20148. *)
Definition db_listing : DB :=
  mkDB (users db_people) (user_roles db_people)
       {[ 0%nat := mkSlot 2 None 20147 32400 36000 available None None;
          1%nat := mkSlot 2 (Some 3%nat) 20148 32400 36000 booked None (Some "l");
          2%nat := mkSlot 2 None 20149 32400 36000 available None None;
          3%nat := mkSlot 2 None 20148 39600 43200 available None None;
          4%nat := mkSlot 5 None 20148 36000 39600 available None None ]}.


(** new@x.com, unknown to the store, and the token Google issues for it. *)
Definition new_payload : GooglePayload := mkPayload "new@x.com" "New" None "g-new".

(** new@x.com again, with a token that carries a picture. *)
Definition pic_payload : GooglePayload :=
  mkPayload "new@x.com" "New" (Some "https://x.com/new.png") "g-new".

(** s@x.com signs in again, with a new display name. *)
Definition s_payload : GooglePayload := mkPayload "s@x.com" "S. Cholar" None "g-s".

(** other@x.com signs in with the Google account that f@x.com is bound to. *)
Definition clash_payload : GooglePayload := mkPayload "other@x.com" "Other" None "g-f".

(** * Properties *)

(** ** Queries by key *)

Section select_by_key.
Context {K A : Type} `{!EqDecision K, !Countable K}.
Implicit Types (t : gmap K A) (k : K).

(** A filter that pins the key selects the row under that key, if the
    row passes the rest of the filter. *)
Lemma select_single_by_key (P : K * A → Prop) `{!∀ x, Decision (P x)}
    k (Q : A → Prop) `{!∀ x, Decision (Q x)} t :
  (∀ k' v, P (k', v) ↔ k' = k ∧ Q v) →
  select_single P t =
  match t !! k with
  | Some v => if decide (Q v) then Some (k, v) else None
  | None => None
  end.
Proof.
  intros HP. unfold select_single.
  assert (filter P t =
          match t !! k with
          | Some v => if decide (Q v) then {[k := v]} else ∅
          | None => ∅
          end) as ->.
  { apply map_eq; intros i; apply option_eq; intros x.
    rewrite map_lookup_filter_Some, HP.
    destruct (t !! k) as [v|] eqn:Hk; [destruct (decide (Q v))|].
    - rewrite lookup_singleton_Some. split.
      + intros (Hi & -> & _). rewrite Hk in Hi. by simplify_eq.
      + intros [<- <-]. done.
    - rewrite lookup_empty. split; [|done].
      intros (Hi & -> & HQ). rewrite Hk in Hi. by simplify_eq.
    - rewrite lookup_empty. split; [|done].
      intros (Hi & -> & _). by rewrite Hk in Hi. }
  destruct (t !! k) as [v|]; [destruct (decide (Q v))|].
  - by rewrite map_to_list_singleton.
  - by rewrite map_to_list_empty.
  - by rewrite map_to_list_empty.
Qed.

Lemma select_single_key (P : K * A → Prop) `{!∀ x, Decision (P x)} k t :
  (∀ k' v, P (k', v) ↔ k' = k) →
  select_single P t = (λ v, (k, v)) <$> t !! k.
Proof.
  intros HP. rewrite (select_single_by_key P k (λ _, True)).
  - by destruct (t !! k).
  - intros k' v. rewrite HP. tauto.
Qed.

Lemma select_single_none (P : K * A → Prop) `{!∀ x, Decision (P x)} t :
  (∀ k v, t !! k = Some v → ¬ P (k, v)) → select_single P t = None.
Proof.
  intros HP. unfold select_single.
  assert (filter P t = ∅) as ->.
  { apply map_empty_filter. intros k v Hk. by apply HP. }
  by rewrite map_to_list_empty.
Qed.

Lemma select_single_unique (P : K * A → Prop) `{!∀ x, Decision (P x)} t k v :
  t !! k = Some v → P (k, v) →
  (∀ k' v', t !! k' = Some v' → P (k', v') → k' = k) →
  select_single P t = Some (k, v).
Proof.
  intros Hk HP Huniq. unfold select_single.
  assert (filter P t = {[k := v]}) as ->.
  { apply map_eq; intros i; apply option_eq; intros x.
    rewrite map_lookup_filter_Some, lookup_singleton_Some. split.
    - intros [Hi HPi]. pose proof (Huniq _ _ Hi HPi) as ->.
      rewrite Hk in Hi. by simplify_eq.
    - intros [<- <-]. done. }
  by rewrite map_to_list_singleton.
Qed.

Lemma select_single_Some (P : K * A → Prop) `{!∀ x, Decision (P x)} t k v :
  select_single P t = Some (k, v) → t !! k = Some v ∧ P (k, v).
Proof.
  unfold select_single. intros Hs.
  destruct (map_to_list (filter P t)) as [|row [|]] eqn:Hl; simplify_eq.
  assert ((k, v) ∈ map_to_list (filter P t)) as Hin by (rewrite Hl; set_solver).
  apply elem_of_map_to_list in Hin. by apply map_lookup_filter_Some in Hin.
Qed.
End select_by_key.

(** [by_key k Q]: rewrite a [.single()] query whose filter pins the key [k]
    and otherwise asks [Q] of the row. *)
Ltac by_key k Q :=
  rewrite (select_single_by_key _ k Q) by (intros ? ?; simpl; tauto).
Ltac by_key_only k :=
  rewrite (select_single_key _ k) by (intros ? ?; simpl; tauto).

Lemma new_id_fresh {A} (t : gmap nat A) : t !! new_id t = None.
Proof. apply not_elem_of_dom. unfold new_id. apply is_fresh. Qed.

Lemma requiring_pass {A} allowed caller (h : DB → Response A * DB) db :
  au_role caller ∈ allowed → requiring allowed caller h db = h db.
Proof. intros Hin. unfold requiring, requireRole. by rewrite bool_decide_eq_true_2. Qed.

(** ** Booking a slot that is not available *)

Lemma bookSlot_unavailable r db :
  (∀ s, slots db !! b_slotId r = Some s → s_status s ≠ available) →
  bookSlot r db = (Err SlotUnavailable, db).
Proof.
  intros Hno. unfold bookSlot. by_key (b_slotId r) (λ s, s_status s = available).
  destruct (slots db !! b_slotId r) as [s|] eqn:Hs; [|done].
  destruct (decide (s_status s = available)) as [Ha|]; [|done].
  by destruct (Hno s).
Qed.

(** C2: a booking request for a slot id under which no available slot is
    stored (no slot at all, or a booked, cancelled or completed one) fails
    with SlotUnavailable, HTTP 404, and leaves the store as it was; the
    same holds behind [requireRole('scholar')] for a scholar. *)
Theorem book_unavailable_fails (r : BookRequest) (db : DB) :
  (∀ s, slots db !! b_slotId r = Some s → s_status s ≠ available) →
  bookSlot r db = (Err SlotUnavailable, db) ∧
  http_status SlotUnavailable = 404%nat ∧
  (au_role (b_caller r) = scholar →
   requiring [scholar] (b_caller r) (bookSlot r) db = (Err SlotUnavailable, db)).
Proof.
  intros Hno. split; [by apply bookSlot_unavailable|]. split; [done|].
  intros Hrole. rewrite requiring_pass; [by apply bookSlot_unavailable|].
  rewrite Hrole. set_solver.
Qed.

Lemma book_unavailable_fails_witness :
  bookSlot book_s2_0 db_booked = (Err SlotUnavailable, db_booked) ∧
  http_status SlotUnavailable = 404%nat ∧
  (au_role (b_caller book_s2_0) = scholar →
   requiring [scholar] (b_caller book_s2_0) (bookSlot book_s2_0) db_booked
   = (Err SlotUnavailable, db_booked)).
Proof.
  apply (book_unavailable_fails book_s2_0 db_booked).
  intros s Hs. vm_compute in Hs. by simplify_eq.
Defined.

(** ** Deleting a slot *)

Lemma deleteSlot_eq caller slotId db :
  deleteSlot caller slotId db =
  match slots db !! slotId with
  | Some s =>
    if decide (s_faculty_id s = au_id caller) then
      if decide (s_status s = booked) then (Err Forbidden, db)
      else (Ok (), with_slots (delete slotId) db)
    else (Err NotFound, db)
  | None => (Err NotFound, db)
  end.
Proof.
  unfold deleteSlot. by_key slotId (λ s, s_faculty_id s = au_id caller).
  destruct (slots db !! slotId) as [s|]; [|done].
  by destruct (decide (s_faculty_id s = au_id caller)).
Qed.

(** C5, as the handler has it: a deletion request fails NotFound when no
    slot with the given id belongs to the caller (absent and not-yours are
    not told apart), fails Forbidden when the caller's slot is booked, and
    otherwise, whatever the status (available, cancelled or completed),
    removes the slot and nothing else. *)
Theorem deleteSlot_outcome (caller : AuthUser) (slotId : nat) (db : DB) :
  ((∀ s, slots db !! slotId = Some s → s_faculty_id s ≠ au_id caller) →
   deleteSlot caller slotId db = (Err NotFound, db)) ∧
  (∀ s, slots db !! slotId = Some s → s_faculty_id s = au_id caller →
     (s_status s = booked → deleteSlot caller slotId db = (Err Forbidden, db)) ∧
     (s_status s ≠ booked →
      deleteSlot caller slotId db = (Ok (), with_slots (delete slotId) db))).
Proof.
  rewrite deleteSlot_eq. split.
  - intros Hnot. destruct (slots db !! slotId) as [s|] eqn:Hs; [|done].
    rewrite decide_False; [done|]. by apply Hnot.
  - intros s -> Hown. rewrite decide_True by done.
    split; intros Hst; [by rewrite decide_True|by rewrite decide_False].
Qed.

Lemma deleteSlot_outcome_witness :
  deleteSlot sch 0 db_booked = (Err NotFound, db_booked) ∧
  deleteSlot fac 0 db_booked = (Err Forbidden, db_booked) ∧
  deleteSlot fac 0 db_one_slot = (Ok (), with_slots (delete 0%nat) db_one_slot).
Proof.
  split; [|split].
  - apply (deleteSlot_outcome sch 0 db_booked).
    intros s Hs. vm_compute in Hs. by simplify_eq.
  - eapply (deleteSlot_outcome fac 0 db_booked); by vm_compute.
  - eapply (deleteSlot_outcome fac 0 db_one_slot); by vm_compute.
Defined.

(** C5, as stated, fails: the owner's deletion of a cancelled slot does not
    fail; the slot is removed. *)
Lemma delete_cancelled_succeeds :
  s_status <$> slots db_cancelled !! 0%nat = Some cancelled ∧
  deleteSlot fac 0 db_cancelled = (Ok (), with_slots (delete 0%nat) db_cancelled) ∧
  slots (deleteSlot fac 0 db_cancelled).2 !! 0%nat = None.
Proof. by vm_compute. Qed.

(** ** Changing one's own role *)

(** Identifiers are compared as texts by the handler and as uuids by the
    store: the two agree on the text the store prints, and differ on its
    other spellings. *)
Example uuid_spellings :
  uuid_out 171 = "00000000-0000-0000-0000-0000000000ab" ∧
  uuid_in "00000000-0000-0000-0000-0000000000ab" = Some 171%nat ∧
  uuid_in "00000000-0000-0000-0000-0000000000AB" = Some 171%nat ∧
  uuid_in "000000000000000000000000000000ab" = Some 171%nat ∧
  uuid_in "{00000000-0000-0000-0000-0000000000ab}" = Some 171%nat ∧
  uuid_in "171" = None ∧ uuid_in "" = None.
Proof. by vm_compute. Qed.




(** ** Creating a slot *)

Lemma overlap_filter_three_way S E s : overlap_filter S E s ↔ three_way_overlap S E s.
Proof. unfold overlap_filter, three_way_overlap. lia. Qed.

Lemma overlapping_slots_conflicting f d S E t :
  (0 < size (overlapping_slots f d S E t))%nat ↔ conflicting f d S E t.
Proof.
  unfold conflicting, overlapping_slots. split.
  - intros Hsz.
    assert (size (filter (λ row : nat * Slot,
              s_faculty_id row.2 = f ∧ s_date row.2 = d ∧ overlap_filter S E row.2) t) ≠ 0%nat)
      as Hne by lia.
    apply map_size_ne_0_lookup in Hne as [id [s Hs]].
    apply map_lookup_filter_Some in Hs as (Hs & Hf & Hd & Ho).
    exists id, s. by rewrite <-overlap_filter_three_way.
  - intros (id & s & Hs & Hf & Hd & Ho).
    apply Nat.neq_0_lt_0, map_size_ne_0_lookup. exists id, s.
    apply map_lookup_filter_Some. by rewrite overlap_filter_three_way.
Qed.

(** X22: what the handler checks, in order.  It first rejects a request
    whose end instant is not after its start instant with InvalidRange,
    whatever the store holds; otherwise it answers SlotConflict (HTTP 409)
    exactly when a stored slot of the same faculty and date, of any status,
    matches the three-way overlap condition on the times of day; and
    otherwise inserts the slot, with status available, under a new key. *)
Theorem createSlot_validation (tz : Z → Z) (caller : AuthUser) (req : SlotRequest)
    (db : DB) :
  let startTimeOnly := toTimeOnly tz (start_time req) in
  let endTimeOnly := toTimeOnly tz (end_time req) in
  let dateOnly := toDateOnly (date req) in
  let slot := mkSlot (au_id caller) None dateOnly startTimeOnly endTimeOnly
                     available None None in
  let id := new_id (slots db) in
  (end_time req <= start_time req →
   createSlot tz caller req db = (Err InvalidRange, db)) ∧
  (start_time req < end_time req →
   (createSlot tz caller req db = (Err SlotConflict, db) ↔
    conflicting (au_id caller) dateOnly startTimeOnly endTimeOnly (slots db)) ∧
   (¬ conflicting (au_id caller) dateOnly startTimeOnly endTimeOnly (slots db) →
    createSlot tz caller req db = (Ok (id, slot), with_slots (<[id := slot]>) db) ∧
    slots db !! id = None ∧ s_status slot = available)) ∧
  http_status SlotConflict = 409%nat.
Proof.
  intros S E d slot id. unfold createSlot. fold S E d. split; [|split; [|done]].
  - intros Hle. by rewrite bool_decide_eq_true_2.
  - intros Hlt. rewrite bool_decide_eq_false_2 by lia.
    destruct (bool_decide (0 < size (overlapping_slots (au_id caller) d S E (slots db)))%nat)
      eqn:Hsz.
    + apply bool_decide_eq_true in Hsz. apply overlapping_slots_conflicting in Hsz.
      split; [done|]. by intros Hno.
    + apply bool_decide_eq_false in Hsz. rewrite overlapping_slots_conflicting in Hsz.
      split; [split; [done|by intros ?]|].
      intros _. split; [done|]. split; [apply new_id_fresh|done].
Qed.

Lemma createSlot_validation_witness :
  createSlot utc fac (mkSlotRequest (day0 + 10 * hour) (day0 + 9 * hour) day0) db_one_slot
  = (Err InvalidRange, db_one_slot) ∧
  createSlot utc fac slot_930_1030 db_one_slot = (Err SlotConflict, db_one_slot) ∧
  ∃ id slot, createSlot utc fac slot_11_12 db_one_slot
             = (Ok (id, slot), with_slots (<[id := slot]>) db_one_slot).
Proof.
  split; [|split].
  - apply (createSlot_validation utc fac _ db_one_slot). by vm_compute.
  - apply (createSlot_validation utc fac slot_930_1030 db_one_slot); [by vm_compute|].
    exists 0%nat, (mkSlot 2 None 20148 32400 36000 available None None).
    split; [by vm_compute|]. split; [done|]. split; [done|].
    left. by vm_compute.
  - do 2 eexists.
    apply (createSlot_validation utc fac slot_11_12 db_one_slot); [by vm_compute|].
    intros (id & s & Hs & _ & _ & Ho).
    destruct (decide (id = 0%nat)) as [->|Hne].
    + vm_compute in Hs. simplify_eq. unfold three_way_overlap in Ho.
      vm_compute in Ho. intuition congruence.
    + assert (slots db_one_slot !! id = None) as Hnone; [|congruence].
      change (slots db_one_slot) with
        ({[ 0%nat := mkSlot 2 None 20148 32400 36000 available None None ]} : gmap nat Slot).
      by apply lookup_singleton_ne.
Defined.

(** C4: the code fails the claim.  The range check compares the two
    instants of the request, the row stores their times of day, and
    nothing checks that the two instants lie on one day.  A request of F
    for 2025-03-01 from 23:00 to 01:00 of the next day has its end time
    of day before its start time of day; it is not answered InvalidRange
    but accepted, and the slot is stored with its end before its start. *)
Theorem createSlot_across_midnight :
  let req := mkSlotRequest (day0 + 23 * hour) (day0 + 25 * hour) day0 in
  let slot := mkSlot 2 None 20148 82800 3600 available None None in
  toTimeOnly utc (start_time req) = 82800 ∧ toTimeOnly utc (end_time req) = 3600 ∧
  createSlot utc fac req db_people
  = (Ok (0%nat, slot), with_slots (<[0%nat := slot]>) db_people) ∧
  (createSlot utc fac req db_people).1 ≠ Err InvalidRange ∧
  s_end_time slot < s_start_time slot.
Proof. by vm_compute. Qed.

(** ** Accepted slots do not overlap *)

Lemma overlap_filter_disjoint (a b : Slot) :
  ¬ overlap_filter (s_start_time b) (s_end_time b) a → disjoint_intervals a b.
Proof. unfold overlap_filter, disjoint_intervals. intros Hno t. lia. Qed.

Lemma disjoint_intervals_sym a b : disjoint_intervals a b → disjoint_intervals b a.
Proof. unfold disjoint_intervals. intros Hd t. specialize (Hd t). lia. Qed.

Lemma googleLogin_slots now p db : slots (googleLogin now p db).2 = slots db.
Proof. unfold googleLogin. repeat case_match; simplify_eq; done. Qed.

Lemma updateUserRole_slots caller userId role db :
  slots (updateUserRole caller userId role db).2 = slots db.
Proof. unfold updateUserRole. repeat case_match; simplify_eq; done. Qed.

Lemma setRoleByEmail_slots caller email role db :
  slots (setRoleByEmail caller email role db).2 = slots db.
Proof. unfold setRoleByEmail. repeat case_match; simplify_eq; done. Qed.

Lemma createSlot_overlap_free tz caller req db :
  overlap_free (slots db) → overlap_free (slots (createSlot tz caller req db).2).
Proof.
  intros Hfree. unfold createSlot.
  case_bool_decide as Hrange; [done|].
  case_bool_decide as Hsz; [done|]. simpl.
  set (S := toTimeOnly tz (start_time req)) in *.
  set (E := toTimeOnly tz (end_time req)) in *.
  set (d := toDateOnly (date req)) in *.
  set (slot := mkSlot (au_id caller) None d S E available None None).
  assert (∀ k s, slots db !! k = Some s →
            s_faculty_id s = au_id caller → s_date s = d → disjoint_intervals s slot)
    as Hnew.
  { intros k s Hk Hf Hd. apply overlap_filter_disjoint. simpl. intros Ho.
    apply Hsz, Nat.neq_0_lt_0, map_size_ne_0_lookup. exists k, s.
    by apply map_lookup_filter_Some. }
  pose proof (new_id_fresh (slots db)) as Hfresh.
  intros i j a b Hi Hj Hij Hf Hd.
  apply lookup_insert_Some in Hi as [[<- <-]|[Hni Hi]];
    apply lookup_insert_Some in Hj as [[<- <-]|[Hnj Hj]].
  - done.
  - apply disjoint_intervals_sym. by apply (Hnew j b).
  - by apply (Hnew i a).
  - by apply (Hfree i j).
Qed.

Lemma alter_overlap_free (f : Slot → Slot) k t :
  (∀ s, s_faculty_id (f s) = s_faculty_id s ∧ s_date (f s) = s_date s ∧
        s_start_time (f s) = s_start_time s ∧ s_end_time (f s) = s_end_time s) →
  overlap_free t → overlap_free (alter f k t).
Proof.
  intros Hf Hfree i j a b Hi Hj Hij.
  assert (∀ i a, alter f k t !! i = Some a →
            ∃ a', t !! i = Some a' ∧ s_faculty_id a = s_faculty_id a' ∧
                  s_date a = s_date a' ∧ s_start_time a = s_start_time a' ∧
                  s_end_time a = s_end_time a') as Hsame.
  { intros i0 a0 H0. apply lookup_alter_Some in H0 as [(_ & a' & H0 & ->)|[_ H0]].
    - exists a'. split; [done|]. apply Hf.
    - by exists a0. }
  destruct (Hsame _ _ Hi) as (a' & Hi' & Hfa & Hda & Hsa & Hea).
  destruct (Hsame _ _ Hj) as (b' & Hj' & Hfb & Hdb & Hsb & Heb).
  intros Hfac Hdate. pose proof (Hfree i j a' b' Hi' Hj' Hij) as Hd.
  unfold disjoint_intervals in *. rewrite Hsa, Hea, Hsb, Heb. apply Hd; congruence.
Qed.

Lemma bookSlot_overlap_free r db :
  overlap_free (slots db) → overlap_free (slots (bookSlot r db).2).
Proof.
  intros Hfree. unfold bookSlot. repeat case_match; try done; simpl.
  all: by apply alter_overlap_free.
Qed.

Lemma deleteSlot_overlap_free caller slotId db :
  overlap_free (slots db) → overlap_free (slots (deleteSlot caller slotId db).2).
Proof.
  intros Hfree. rewrite deleteSlot_eq. repeat case_match; try done; simpl.
  intros i j a b Hi Hj. apply lookup_delete_Some in Hi as [_ Hi].
  apply lookup_delete_Some in Hj as [_ Hj]. by apply Hfree.
Qed.

Lemma requiring_cases {A} allowed caller (h : DB → Response A * DB) db :
  requiring allowed caller h db = h db ∨ requiring allowed caller h db = (Err Forbidden, db).
Proof. unfold requiring. destruct (requireRole allowed caller); auto. Qed.

Lemma serve_overlap_free tz rq db :
  overlap_free (slots db) → overlap_free (slots (serve tz rq db)).
Proof.
  intros Hfree. destruct rq; simpl.
  - by rewrite googleLogin_slots.
  - unfold route_updateUserRole.
    destruct (requiring_cases [admin] caller (updateUserRole caller userId role) db) as [-> | ->];
      [by rewrite updateUserRole_slots|done].
  - unfold route_setRoleByEmail.
    destruct (requiring_cases [admin] caller (setRoleByEmail caller email role) db) as [-> | ->];
      [by rewrite setRoleByEmail_slots|done].
  - destruct (requiring_cases [faculty; admin] caller (createSlot tz caller req) db) as [-> | ->];
      [by apply createSlot_overlap_free|done].
  - destruct (requiring_cases [scholar] (b_caller r) (bookSlot r) db) as [-> | ->];
      [by apply bookSlot_overlap_free|done].
  - destruct (requiring_cases [faculty; admin] caller (deleteSlot caller slotId) db) as [-> | ->];
      [by apply deleteSlot_overlap_free|done].
Qed.

Lemma serve_all_overlap_free tz rqs db :
  overlap_free (slots db) → overlap_free (slots (serve_all tz rqs db)).
Proof.
  revert db. induction rqs as [|rq rqs IH]; intros db Hfree; [done|].
  simpl. apply IH. by apply serve_overlap_free.
Qed.

(** C3: after any sequence of requests served one after the other from the
    empty store, two different stored slots (all of them accepted by slot
    creation) of the same faculty on the same date have disjoint half-open
    intervals. *)
Theorem accepted_slots_disjoint (tz : Z → Z) (rqs : list Request)
    (i j : nat) (a b : Slot) :
  slots (serve_all tz rqs empty_db) !! i = Some a →
  slots (serve_all tz rqs empty_db) !! j = Some b →
  i ≠ j →
  s_faculty_id a = s_faculty_id b → s_date a = s_date b →
  disjoint_intervals a b.
Proof.
  intros Hi Hj. eapply serve_all_overlap_free; [|done..].
  intros i' j' a' b' Hi'. simpl in Hi'. by rewrite lookup_empty in Hi'.
Qed.

Lemma accepted_slots_disjoint_witness :
  disjoint_intervals (mkSlot 2 None 20148 32400 36000 available None None)
                     (mkSlot 2 None 20148 39600 43200 available None None).
Proof.
  apply (accepted_slots_disjoint utc three_creations 0 1); by vm_compute.
Defined.

(** ** The fallback meeting link *)

(** Rounding moves a product by less than the last of its 53 bits: from
    below [26 * 2^53 - 26] it does not reach [26 * 2^53]. *)
Lemma round_binary64_below_26 x :
  0 <= x <= 26 * 2 ^ 53 - 26 → 0 <= round_binary64 x < 26 * 2 ^ 53.
Proof.
  intros Hx. unfold round_binary64.
  destruct (decide (Z.log2 x - 52 <= 0)) as [He|He]; [lia|].
  assert (0 < x) as Hpos.
  { destruct (decide (0 < x)) as [|Hn]; [done|].
    rewrite Z.log2_nonpos in He by lia. lia. }
  destruct (Z.log2_spec x Hpos) as [Hlo Hhi].
  assert (Z.log2 x < 58) as Hlog by (apply Z.log2_lt_pow2; lia).
  assert (Z.log2 x = 53 ∨ Z.log2 x = 54 ∨ Z.log2 x = 55 ∨ Z.log2 x = 56 ∨ Z.log2 x = 57)
    as Hcases by lia.
  destruct Hcases as [Hl|[Hl|[Hl|[Hl|Hl]]]]; rewrite Hl in *;
    match goal with
    | |- context [x `div` 2 ^ ?e] =>
      let v := eval vm_compute in (2 ^ e) in
      let h := eval vm_compute in (2 ^ (e - 1)) in
      change (2 ^ e) with v in *; change (2 ^ (e - 1)) with h in *;
      pose proof (Z.div_mod x v ltac:(lia)) as Hdiv;
      pose proof (Z.mod_pos_bound x v ltac:(lia)) as Hmod
    end;
    change (2 ^ 53) with 9007199254740992 in *;
    change (2 ^ (Z.succ 53)) with 18014398509481984 in *;
    change (2 ^ 54) with 18014398509481984 in *;
    change (2 ^ (Z.succ 54)) with 36028797018963968 in *;
    change (2 ^ 55) with 36028797018963968 in *;
    change (2 ^ (Z.succ 55)) with 72057594037927936 in *;
    change (2 ^ 56) with 72057594037927936 in *;
    change (2 ^ (Z.succ 56)) with 144115188075855872 in *;
    change (2 ^ 57) with 144115188075855872 in *;
    change (2 ^ (Z.succ 57)) with 288230376151711744 in *;
    repeat case_decide; try destruct (Z.even _); lia.
Qed.

Lemma random_below_range rnd k : 0 <= random_below rnd k 26 < 26.
Proof.
  unfold random_below.
  pose proof (Z.mod_pos_bound (rnd k) (2 ^ 53) ltac:(lia)) as Hm.
  destruct (round_binary64_below_26 ((rnd k `mod` 2 ^ 53) * 26)) as [Hlo Hhi]; [lia|].
  split.
  - apply Z.div_pos; lia.
  - apply Z.div_lt_upper_bound; lia.
Qed.

Lemma char_at_lowercase i :
  0 <= i < 26 → ∃ c, char_at i = String c "" ∧ is_lowercase c.
Proof.
  intros Hi. assert (∃ n, i = Z.of_nat n ∧ (n < 26)%nat) as (n & -> & Hn).
  { exists (Z.to_nat i). lia. }
  unfold char_at. rewrite Nat2Z.id. clear Hi.
  do 26 (destruct n as [|n];
         [eexists; split; [reflexivity|unfold is_lowercase; by vm_compute]|]).
  lia.
Qed.

Lemma string_length_app (s t : string) :
  String.length (s +:+ t) = (String.length s + String.length t)%nat.
Proof. induction s as [|c s IH]; [done|]. simpl. by rewrite <-IH. Qed.

Lemma list_ascii_app (s t : string) :
  String.list_ascii_of_string (s +:+ t)
  = String.list_ascii_of_string s ++ String.list_ascii_of_string t.
Proof. induction s as [|c s IH]; [done|]. simpl. by rewrite <-IH. Qed.

Lemma fill_segment_lowercase rnd n : ∀ k m seg,
  lowercase_segment m seg → lowercase_segment (m + n) (fill_segment rnd n k seg).
Proof.
  induction n as [|n IH]; intros k m seg Hseg; cbn [fill_segment].
  - by rewrite Nat.add_0_r.
  - replace (m + S n)%nat with (S m + n)%nat by lia. apply IH.
    change (Z.of_nat (String.length chars)) with 26.
    destruct (char_at_lowercase (random_below rnd k 26)) as (c & -> & Hc).
    { apply random_below_range. }
    destruct Hseg as [Hlen Hall]. split.
    + rewrite string_length_app, Hlen. simpl. lia.
    + rewrite list_ascii_app. apply Forall_app. split; [done|]. simpl. by apply Forall_singleton.
Qed.

Lemma generateFallbackMeetLink_form rnd : fallback_link_form (generateFallbackMeetLink rnd).
Proof.
  exists (fill_segment rnd 3 0 ""), (fill_segment rnd 4 3 ""), (fill_segment rnd 3 7 "").
  split; [reflexivity|].
  assert (lowercase_segment 0 "") as Hnil by (split; [done|constructor]).
  split; [|split].
  - by apply (fill_segment_lowercase rnd 3 0 0).
  - by apply (fill_segment_lowercase rnd 4 3 0).
  - by apply (fill_segment_lowercase rnd 3 7 0).
Qed.

(** ** Booking an available slot *)

Lemma bookSlot_available r db s :
  slots db !! b_slotId r = Some s → s_status s = available →
  let meetingLink := createRealGoogleMeet (b_outcome r) (b_rnd r) in
  let update := book_update (au_id (b_caller r)) (b_notes r) meetingLink in
  bookSlot r db =
  (Ok ((b_slotId r, update s), meetingLink), with_slots (alter update (b_slotId r)) db).
Proof.
  intros Hs Ha link update. unfold bookSlot.
  by_key (b_slotId r) (λ s, s_status s = available).
  rewrite Hs, decide_True by done.
  by_key_only (b_slotId r). simpl.
  by rewrite lookup_alter_eq, Hs.
Qed.

(** C8: when the meeting-provisioning call fails, the booking of an
    available slot still succeeds: the response is a success, the slot is
    stored as booked by the caller, and its meeting link is the locally
    generated one, of the form https://meet.google.com/xxx-xxxx-xxx with
    lowercase letters. *)
Theorem booking_survives_provisioning_failure (r : BookRequest) (db : DB) (s : Slot) :
  slots db !! b_slotId r = Some s → s_status s = available →
  b_outcome r = ProvisionFailed →
  ∃ link bookedSlot db',
    bookSlot r db = (Ok ((b_slotId r, bookedSlot), Some link), db') ∧
    slots db' !! b_slotId r = Some bookedSlot ∧
    s_status bookedSlot = booked ∧
    s_scholar_id bookedSlot = Some (au_id (b_caller r)) ∧
    s_meeting_link bookedSlot = Some link ∧
    link = generateFallbackMeetLink (b_rnd r) ∧
    fallback_link_form link.
Proof.
  intros Hs Ha Hfail.
  pose proof (bookSlot_available r db s Hs Ha) as Hb. simpl in Hb.
  rewrite Hfail in Hb. simpl in Hb.
  eexists _, _, _. split; [exact Hb|]. simpl.
  rewrite lookup_alter_eq, Hs. repeat split. apply generateFallbackMeetLink_form.
Qed.

Lemma booking_survives_provisioning_failure_witness :
  ∃ bookedSlot db',
    bookSlot book_s2_0 db_one_slot
    = (Ok ((0%nat, bookedSlot), Some "https://meet.google.com/adg-jnqt-wad"), db') ∧
    s_meeting_link bookedSlot = Some "https://meet.google.com/adg-jnqt-wad".
Proof.
  destruct (booking_survives_provisioning_failure book_s2_0 db_one_slot
              (mkSlot 2 None 20148 32400 36000 available None None))
    as (link & bookedSlot & db' & Hb & _ & _ & _ & Hl & Hlink & _);
    [by vm_compute..|].
  exists bookedSlot, db'.
  assert (link = "https://meet.google.com/adg-jnqt-wad") as <-; [|done].
  rewrite Hlink. by vm_compute.
Defined.

(** ** Listing the available slots *)

(** C10: the listing holds exactly the stored slots that are available and
    dated today (the UTC day of the clock) or later, and that pass the
    faculty and date filters when these are supplied; each once, ordered by
    date and then by start time. *)
Theorem listAvailableSlots_exact (now : Z) (faculty_id : option nat) (date : option Z)
    (db : DB) :
  let listed := listAvailableSlots now faculty_id date db in
  (∀ id s, (id, s) ∈ listed ↔
     slots db !! id = Some s ∧ s_status s = available ∧ toDateOnly now <= s_date s ∧
     (∀ f, faculty_id = Some f → s_faculty_id s = f) ∧
     (∀ d, date = Some d → s_date s = d)) ∧
  NoDup listed ∧
  StronglySorted slot_order listed.
Proof.
  intros listed. unfold listed, listAvailableSlots. split; [|split].
  - intros id s. rewrite merge_sort_Permutation, elem_of_map_to_list.
    assert (∀ (A : Type) (x y : A), (∀ z, Some x = Some z → y = z) ↔ y = x) as Hsome.
    { intros A x y. split; [intros Hz; by apply Hz|by intros -> z [= <-]]. }
    assert (∀ (A : Type) (y : A), (∀ z, @None A = Some z → y = z) ↔ True) as Hnone.
    { intros A y. split; [done|by intros _ z [=]]. }
    destruct faculty_id as [f|], date as [d|];
      rewrite ?map_lookup_filter_Some, ?Hsome, ?Hnone; simpl; tauto.
  - rewrite merge_sort_Permutation. apply NoDup_map_to_list.
  - apply StronglySorted_merge_sort; apply _.
Qed.

Example listAvailableSlots_example :
  listAvailableSlots (day0 + 5 * hour) None None db_listing =
  [ (4%nat, mkSlot 5 None 20148 36000 39600 available None None);
    (3%nat, mkSlot 2 None 20148 39600 43200 available None None);
    (2%nat, mkSlot 2 None 20149 32400 36000 available None None) ] ∧
  listAvailableSlots (day0 + 5 * hour) (Some 2%nat) (Some 20149) db_listing =
  [ (2%nat, mkSlot 2 None 20149 32400 36000 available None None) ].
Proof. by vm_compute. Qed.

(** ** The two role stores *)

Example db_people_in_sync : emails_unique (users db_people) ∧ roles_in_sync db_people.
Proof. split; apply (bool_decide_unpack _); by vm_compute. Qed.

Lemma emails_unique_spec t :
  emails_unique t ↔
  ∀ i j u v, t !! i = Some u → t !! j = Some v → u_email u = u_email v → i = j.
Proof.
  unfold emails_unique, map_Forall. split.
  - intros Hu i j u v Hi Hj. by apply (Hu i u Hi j v Hj).
  - intros Hu i u Hi j v Hj. by apply (Hu i j u v).
Qed.

Lemma roles_in_sync_spec db :
  roles_in_sync db ↔
  ∀ id u r, users db !! id = Some u → user_roles db !! u_email u = Some r → u_role u = r.
Proof.
  unfold roles_in_sync, map_Forall. split.
  - intros Hs id u r Hu. by apply (Hs id u Hu).
  - intros Hs id u Hu r. by apply (Hs id u r).
Qed.

(** The query by email under the uniqueness constraint. *)
Lemma select_by_email_None t email :
  emails_unique t →
  select_single (λ row : nat * User, u_email row.2 = email) t = None →
  ∀ id u, t !! id = Some u → u_email u ≠ email.
Proof.
  rewrite emails_unique_spec. intros Huniq Hnone id u Hu He.
  rewrite (select_single_unique _ t id u) in Hnone; [done..|].
  intros id' u' Hu' He'. simpl in *. apply (Huniq id' id u' u); congruence.
Qed.

Lemma select_by_email_Some t email id u :
  select_single (λ row : nat * User, u_email row.2 = email) t = Some (id, u) →
  t !! id = Some u ∧ u_email u = email.
Proof. intros Hs. by apply select_single_Some in Hs. Qed.

Lemma select_by_email_absent t email :
  (∀ id u, t !! id = Some u → u_email u ≠ email) →
  select_single (λ row : nat * User, u_email row.2 = email) t = None.
Proof. intros Hno. apply select_single_none. intros k v Hk. by apply (Hno k v). Qed.

(** What the two role handlers do to the store when they get past their
    checks. *)
Lemma updateUserRole_eq caller userId role db :
  updateUserRole caller userId role db =
  match role_of_string role with
  | None => (Err InvalidRole, db)
  | Some r =>
    if decide (userId = uuid_out (au_id caller)) then (Err Forbidden, db)
    else match uuid_in userId with
         | None => (Err NotFound, db)
         | Some id =>
           match users db !! id with
           | None => (Err NotFound, db)
           | Some target =>
             (Ok (id, set_role r target),
              with_users (alter (set_role r) id)
                (with_user_roles (<[u_email target := r]>) db))
           end
         end
  end.
Proof.
  unfold updateUserRole. destruct (role_of_string role) as [r|]; [|done].
  destruct (decide (userId = uuid_out (au_id caller))); [done|].
  unfold select_by_id, update_by_id. destruct (uuid_in userId) as [id|]; [|done]. simpl.
  by_key_only id. destruct (users db !! id) as [target|] eqn:Ht; [|done].
  simpl. by_key_only id. simpl. by rewrite lookup_alter_eq, Ht.
Qed.

Lemma sync_role_email email r u : u_email (sync_role email r u) = u_email u.
Proof. unfold sync_role. by destruct (decide _). Qed.

Lemma emails_unique_alter r id t :
  emails_unique t → emails_unique (alter (set_role r) id t).
Proof.
  rewrite !emails_unique_spec. intros Hu i j u v Hi Hj.
  apply lookup_alter_Some in Hi as [(_ & u' & Hi & ->)|[_ Hi]];
    apply lookup_alter_Some in Hj as [(_ & v' & Hj & ->)|[_ Hj]];
    simpl; by apply Hu.
Qed.

Lemma emails_unique_fmap email r t :
  emails_unique t → emails_unique (sync_role email r <$> t).
Proof.
  rewrite !emails_unique_spec. intros Hu i j u v Hi Hj.
  apply lookup_fmap_Some in Hi as (u' & <- & Hi).
  apply lookup_fmap_Some in Hj as (v' & <- & Hj).
  rewrite !sync_role_email. by apply Hu.
Qed.

Lemma updateUserRole_keeps_sync caller userId role db :
  emails_unique (users db) → roles_in_sync db →
  emails_unique (users (updateUserRole caller userId role db).2) ∧
  roles_in_sync (updateUserRole caller userId role db).2.
Proof.
  intros Hu Hs. rewrite updateUserRole_eq.
  destruct (role_of_string role) as [r|]; [|done].
  destruct (decide (userId = uuid_out (au_id caller))); [done|].
  destruct (uuid_in userId) as [k|]; [|done].
  destruct (users db !! k) as [target|] eqn:Ht; [|done]. simpl.
  split; [by apply emails_unique_alter|].
  apply roles_in_sync_spec. intros id u r' Hid Hr. simpl in *.
  apply lookup_alter_Some in Hid as [(<- & u' & Hid & ->)|[Hne Hid]].
  - simpl in *. rewrite Ht in Hid. simplify_eq.
    rewrite lookup_insert_eq in Hr. by simplify_eq.
  - destruct (decide (u_email target = u_email u)) as [He|He].
    + destruct Hne. by apply (proj1 (emails_unique_spec _) Hu k id target u).
    + rewrite lookup_insert_ne in Hr by done.
      by apply (proj1 (roles_in_sync_spec _) Hs id u r').
Qed.

Lemma setRoleByEmail_keeps_sync caller email role db :
  emails_unique (users db) → roles_in_sync db →
  emails_unique (users (setRoleByEmail caller email role db).2) ∧
  roles_in_sync (setRoleByEmail caller email role db).2.
Proof.
  intros Hu Hs. unfold setRoleByEmail.
  destruct (bool_decide (email = "") || bool_decide (role = "")); [done|].
  destruct (role_of_string role) as [r|]; [|done].
  destruct (decide (email = au_email caller)); [done|]. simpl.
  destruct (select_single _ (users db)) as [[id0 u0]|] eqn:Hsel; simpl.
  - split; [by apply (emails_unique_fmap email r)|].
    apply roles_in_sync_spec. intros id u r' Hid Hr. simpl in *.
    apply lookup_fmap_Some in Hid as (u' & <- & Hid).
    rewrite sync_role_email in Hr. unfold sync_role.
    destruct (decide (u_email u' = email)) as [He|He].
    + rewrite He in Hr. rewrite lookup_insert_eq in Hr. by simplify_eq.
    + rewrite lookup_insert_ne in Hr by done.
      by apply (proj1 (roles_in_sync_spec _) Hs id u' r').
  - split; [done|].
    apply roles_in_sync_spec. intros id u r' Hid Hr. simpl in *.
    pose proof (select_by_email_None _ _ Hu Hsel id u Hid) as He.
    rewrite lookup_insert_ne in Hr by done.
    by apply (proj1 (roles_in_sync_spec _) Hs id u r').
Qed.

(** C9: a role mutation keeps the two stores in step.  On a store whose
    identities have distinct emails and where every identity with a role
    assignment carries the assigned role, the same holds after either
    role-mutation route has answered; and when the mutation succeeds the
    assignment of the target email and the role of the target identity are
    both the requested role. *)
Theorem role_mutation_keeps_roles_in_sync (caller : AuthUser)
    (userId email role : string) (db : DB) :
  emails_unique (users db) → roles_in_sync db →
  let by_id := route_updateUserRole caller userId role db in
  let by_email := route_setRoleByEmail caller email role db in
  roles_in_sync by_id.2 ∧ roles_in_sync by_email.2 ∧
  (∀ id u, by_id.1 = Ok (id, u) →
     uuid_in userId = Some id ∧ users by_id.2 !! id = Some u ∧
     role_of_string role = Some (u_role u) ∧
     user_roles by_id.2 !! u_email u = Some (u_role u)) ∧
  (∀ e r synced, by_email.1 = Ok (e, r, synced) →
     e = email ∧ role_of_string role = Some r ∧
     user_roles by_email.2 !! email = Some r ∧
     ∀ id u, users by_email.2 !! id = Some u → u_email u = email → u_role u = r).
Proof.
  intros Hu Hs by_id by_email.
  assert (roles_in_sync by_email.2) as Hsync_email.
  { unfold by_email, route_setRoleByEmail.
    destruct (requiring_cases [admin] caller (setRoleByEmail caller email role) db) as [-> | ->];
      [by apply setRoleByEmail_keeps_sync|done]. }
  split; [|split; [done|split]].
  - unfold by_id, route_updateUserRole.
    destruct (requiring_cases [admin] caller (updateUserRole caller userId role) db) as [-> | ->];
      [by apply updateUserRole_keeps_sync|done].
  - intros id u. unfold by_id, route_updateUserRole.
    destruct (requiring_cases [admin] caller (updateUserRole caller userId role) db) as [-> | ->];
      [|done].
    rewrite updateUserRole_eq.
    destruct (role_of_string role) as [r|]; [|done].
    destruct (decide (userId = uuid_out (au_id caller))); [done|].
    destruct (uuid_in userId) as [k|]; [|done].
    destruct (users db !! k) as [target|] eqn:Ht; [|done]. simpl.
    intros [= <- <-]. simpl.
    by rewrite lookup_alter_eq, Ht, lookup_insert_eq.
  - intros e r synced Hok.
    assert (e = email ∧ role_of_string role = Some r ∧
            user_roles by_email.2 !! email = Some r) as (-> & Hr & Hlook).
    { revert Hok Hsync_email. unfold by_email, route_setRoleByEmail.
      destruct (requiring_cases [admin] caller (setRoleByEmail caller email role) db) as [-> | ->];
        [|done].
      unfold setRoleByEmail.
      destruct (bool_decide (email = "") || bool_decide (role = "")); [done|].
      destruct (role_of_string role) as [r0|]; [|done].
      destruct (decide (email = au_email caller)); [done|]. simpl.
      destruct (select_single _ (users db)) as [[id0 u0]|]; simpl;
        intros [= <- <- <-] _; by rewrite lookup_insert_eq. }
    do 3 (split; [done|]). intros id u Hid He.
    apply (proj1 (roles_in_sync_spec _) Hsync_email id u r Hid). by rewrite He.
Qed.

Lemma role_mutation_keeps_roles_in_sync_witness :
  roles_in_sync (route_updateUserRole root (uuid_out 3) "faculty" db_people).2 ∧
  roles_in_sync (route_setRoleByEmail root "s2@x.com" "faculty" db_people).2.
Proof.
  destruct (role_mutation_keeps_roles_in_sync root (uuid_out 3) "s2@x.com" "faculty"
              db_people)
    as (H1 & H2 & _).
  - apply (bool_decide_unpack _). by vm_compute.
  - apply (bool_decide_unpack _). by vm_compute.
  - split; [exact H1|exact H2].
Defined.

Example role_mutation_example :
  u_role <$> users (route_updateUserRole root (uuid_out 3) "faculty" db_people).2 !! 3%nat
  = Some faculty ∧
  user_roles (route_updateUserRole root (uuid_out 3) "faculty" db_people).2 !! "s@x.com"
  = Some faculty ∧
  u_role <$> users (route_setRoleByEmail root "s2@x.com" "admin" db_people).2 !! 4%nat = Some admin ∧
  user_roles (route_setRoleByEmail root "s2@x.com" "admin" db_people).2 !! "s2@x.com" = Some admin.
Proof. by vm_compute. Qed.

(** ** First login *)

Lemma googleLogin_first now p db :
  (∀ id u, users db !! id = Some u → u_email u ≠ g_email p) →
  (∀ id u, users db !! id = Some u → u_google_id u ≠ Some (g_sub p)) →
  let r := default scholar (user_roles db !! g_email p) in
  let db1 :=
    match user_roles db !! g_email p with
    | Some _ => db
    | None => with_user_roles (<[g_email p := scholar]>) db
    end in
  let row := mkUser (g_email p) (g_name p) (g_picture p) (Some (g_sub p)) r now in
  let id := new_id (users db) in
  googleLogin now p db = (Ok (id, row), with_users (λ _, <[id := row]> (users db)) db1).
Proof.
  intros Hemail Hsub r db1 row id. unfold googleLogin.
  by_key_only (g_email p).
  assert (∀ u, ¬ users_clash None u (users db) ∨ u_email u ≠ g_email p ∨
               u_google_id u ≠ Some (g_sub p)) as Hclash.
  { intros u. destruct (decide (u_email u = g_email p)) as [He|]; [|auto].
    destruct (decide (u_google_id u = Some (g_sub p))) as [Hg|]; [|auto].
    left. intros (k & v & Hk & _ & [Hv|[_ Hv]]).
    - apply (Hemail k v Hk). congruence.
    - apply (Hsub k v Hk). congruence. }
  unfold db1, r, row, id.
  destruct (user_roles db !! g_email p) as [r0|] eqn:Hr; simpl.
  - rewrite select_by_email_absent by done.
    unfold users_insert. rewrite decide_False; [done|].
    by destruct (Hclash (mkUser (g_email p) (g_name p) (g_picture p) (Some (g_sub p)) r0 now))
      as [?|[?|?]].
  - rewrite select_by_email_absent by done.
    unfold users_insert. rewrite decide_False.
    + unfold with_users, with_user_roles, roles_insert; simpl. by rewrite Hr.
    + by destruct (Hclash (mkUser (g_email p) (g_name p) (g_picture p) (Some (g_sub p))
                             scholar now)) as [?|[?|?]].
Qed.

(** C7, as stated, fails: an email without Identity whose token carries a
    Google account id that an Identity of another email is bound to.  The
    admin assigns faculty to new@x.com; the login of new@x.com with the
    Google account of f@x.com finds no user for the email, inserts one and
    is refused by [google_id UNIQUE]: the answer is InternalError (HTTP
    500) and no Identity is created. *)
Lemma preassigned_login_google_id_bound :
  let assigned := route_setRoleByEmail root "new@x.com" "faculty" db_people in
  let p := mkPayload "new@x.com" "New" None "g-f" in
  map_Forall (λ _ u, u_email u ≠ "new@x.com") (users db_people) ∧
  assigned.1 = Ok ("new@x.com", faculty, false) ∧
  user_roles assigned.2 !! "new@x.com" = Some faculty ∧
  googleLogin 5 p assigned.2 = (Err InternalError, assigned.2) ∧
  users assigned.2 = users db_people.
Proof.
  split; [apply (bool_decide_unpack _); by vm_compute|]. by vm_compute.
Qed.

(** C7, as the handler has it: when no Identity holds the email nor the
    Google account id of the token, a role assigned to the email before
    its first login is the role of the Identity that the first login
    creates; without an assignment the first login records the default
    assignment scholar and creates a scholar. *)
Theorem first_login_takes_assigned_role (caller : AuthUser) (role : string) (r : Role)
    (now : Z) (p : GooglePayload) (db : DB) :
  (∀ id u, users db !! id = Some u → u_email u ≠ g_email p) →
  (∀ id u, users db !! id = Some u → u_google_id u ≠ Some (g_sub p)) →
  let id := new_id (users db) in
  (role_of_string role = Some r →
   is_ok (route_setRoleByEmail caller (g_email p) role db).1 = true →
   let db1 := (route_setRoleByEmail caller (g_email p) role db).2 in
   ∃ u db2, googleLogin now p db1 = (Ok (id, u), db2) ∧
            users db !! id = None ∧ users db1 !! id = None ∧
            users db2 !! id = Some u ∧
            u_email u = g_email p ∧ u_role u = r ∧
            user_roles db2 !! g_email p = Some r) ∧
  (user_roles db !! g_email p = None →
   ∃ u db2, googleLogin now p db = (Ok (id, u), db2) ∧
            users db !! id = None ∧ users db2 !! id = Some u ∧
            u_email u = g_email p ∧ u_role u = scholar ∧
            user_roles db2 !! g_email p = Some scholar).
Proof.
  intros Hemail Hsub id. split.
  - intros Hrole Hok db1.
    assert (users db1 = users db ∧ user_roles db1 !! g_email p = Some r) as [Hsame Hr].
    { revert Hok. unfold db1, route_setRoleByEmail.
      destruct (requiring_cases [admin] caller (setRoleByEmail caller (g_email p) role) db)
        as [-> | ->]; [|done].
      unfold setRoleByEmail. rewrite Hrole.
      destruct (bool_decide (g_email p = "") || bool_decide (role = "")); [done|].
      destruct (decide (g_email p = au_email caller)); [done|]. simpl.
      rewrite select_by_email_absent by done. simpl.
      by rewrite lookup_insert_eq. }
    pose proof (googleLogin_first now p db1) as Hlogin. simpl in Hlogin.
    rewrite Hsame, Hr in Hlogin. simpl in Hlogin.
    eexists _, _. split; [by apply Hlogin|]. simpl.
    rewrite Hsame, lookup_insert_eq. fold id.
    by repeat split; try apply new_id_fresh.
  - intros Hnone.
    pose proof (googleLogin_first now p db Hemail Hsub) as Hlogin. simpl in Hlogin.
    rewrite Hnone in Hlogin. simpl in Hlogin.
    eexists _, _. split; [exact Hlogin|]. simpl.
    rewrite !lookup_insert_eq. by repeat split; try apply new_id_fresh.
Qed.

Lemma first_login_takes_assigned_role_witness :
  (∃ u db2,
     googleLogin 5 new_payload (route_setRoleByEmail root "new@x.com" "faculty" db_people).2
     = (Ok (new_id (users db_people), u), db2) ∧ u_role u = faculty) ∧
  (∃ u db2,
     googleLogin 5 new_payload db_people = (Ok (new_id (users db_people), u), db2) ∧
     u_role u = scholar ∧ user_roles db2 !! "new@x.com" = Some scholar).
Proof.
  destruct (first_login_takes_assigned_role root "faculty" faculty 5 new_payload db_people)
    as [H1 H2].
  - apply (bool_decide_unpack
             (map_Forall (λ _ u, u_email u ≠ g_email new_payload) (users db_people))).
    by vm_compute.
  - apply (bool_decide_unpack
             (map_Forall (λ _ u, u_google_id u ≠ Some (g_sub new_payload)) (users db_people))).
    by vm_compute.
  - split.
    + destruct H1 as (u & db2 & Hl & _ & _ & _ & _ & Hr & _); [by vm_compute..|].
      exists u, db2. split; [exact Hl|exact Hr].
    + destruct H2 as (u & db2 & Hl & _ & _ & _ & Hr & Hs); [by vm_compute|].
      exists u, db2. split; [exact Hl|]. split; [exact Hr|exact Hs].
Defined.

(** ** Booking the same slot more than once *)

(** The step machine is the handler, cut at its store calls. *)
Lemma book_steps_bookSlot r db :
  let '(pc1, db1) := book_step r AtFetch db in
  let '(pc2, db2) := book_step r pc1 db1 in
  let '(pc3, db3) := book_step r pc2 db2 in
  let '(pc4, db4) := book_step r pc3 db3 in
  (pc4, db4) = (Finished (bookSlot r db).1, (bookSlot r db).2).
Proof.
  unfold bookSlot. simpl.
  destruct (select_single _ (slots db)) as [row|]; simpl; [|done].
  by destruct (select_single _ _).
Qed.

Lemma book_in_turn_unavailable rs : ∀ db slotId,
  Forall (λ r, b_slotId r = slotId) rs →
  (∀ s, slots db !! slotId = Some s → s_status s ≠ available) →
  book_in_turn rs db = (replicate (length rs) (Err SlotUnavailable), db).
Proof.
  induction rs as [|r rs IH]; intros db slotId Hall Hno; [done|].
  apply Forall_cons in Hall as [Hr Hall]. simpl.
  rewrite bookSlot_unavailable by (by rewrite Hr).
  by rewrite (IH db slotId).
Qed.

(** Under the scheduler, requests served in turn get the responses of
    [book_in_turn]. *)
Lemma resume_middle answered r pc rest db :
  resume (length answered) (answered ++ (r, pc) :: rest, db) =
  (answered ++ (r, (book_step r pc db).1) :: rest, (book_step r pc db).2).
Proof.
  unfold resume. simpl. rewrite list_lookup_middle by done.
  destruct (book_step r pc db) as [pc' db'] eqn:Hstep. simpl. f_equal.
  rewrite <-(Nat.add_0_r (length answered)). by rewrite insert_app_r.
Qed.

Lemma resume_four answered r rest db :
  run_schedule (replicate 4 (length answered)) (answered ++ (r, AtFetch) :: rest, db) =
  (answered ++ (r, Finished (bookSlot r db).1) :: rest, (bookSlot r db).2).
Proof.
  pose proof (book_steps_bookSlot r db) as Hsteps.
  unfold run_schedule. simpl. rewrite !resume_middle.
  destruct (book_step r AtFetch db) as [pc1 db1]. simpl.
  destruct (book_step r pc1 db1) as [pc2 db2]. simpl.
  destruct (book_step r pc2 db2) as [pc3 db3]. simpl.
  destruct (book_step r pc3 db3) as [pc4 db4]. simpl.
  by simplify_eq.
Qed.

Lemma run_schedule_in_turn rs : ∀ answered db,
  run_schedule (mjoin ((λ i, replicate 4 i) <$> seq (length answered) (length rs)))
               (answered ++ ((λ r, (r, AtFetch)) <$> rs), db) =
  (answered ++ zip_with (λ r resp, (r, Finished resp)) rs (book_in_turn rs db).1,
   (book_in_turn rs db).2).
Proof.
  induction rs as [|r rs IH]; intros answered db; [done|].
  cbn [length seq fmap list_fmap mjoin list_join].
  unfold run_schedule in *. rewrite foldl_app.
  pose proof (resume_four answered r ((λ r, (r, AtFetch)) <$> rs) db) as Hfour.
  unfold run_schedule in Hfour. rewrite Hfour.
  specialize (IH (answered ++ [(r, Finished (bookSlot r db).1)]) (bookSlot r db).2).
  rewrite length_app, Nat.add_1_r, <-!(assoc_L (++)) in IH. simpl in IH.
  etrans; [exact IH|]. simpl.
  destruct (bookSlot r db) as [resp db1]. simpl.
  by destruct (book_in_turn rs db1) as [resps db2].
Qed.

Lemma responses_in_turn rs db :
  responses (run_schedule (in_turn (length rs)) (start rs db))
  = Some <$> (book_in_turn rs db).1.
Proof.
  unfold in_turn, start.
  change (run_schedule _ _) with
    (run_schedule (mjoin ((λ i, replicate 4 i) <$> seq (length (@nil (BookRequest * BookPc)))
                                                     (length rs)))
                  ([] ++ ((λ r, (r, AtFetch)) <$> rs), db)).
  rewrite (run_schedule_in_turn rs [] db). unfold responses. simpl.
  assert (length (book_in_turn rs db).1 = length rs) as Hlen.
  { revert db. induction rs as [|r rs IH]; intros db; [done|]. simpl.
    destruct (bookSlot r db) as [resp db1]. specialize (IH db1).
    destruct (book_in_turn rs db1). simpl in *. by rewrite IH. }
  revert Hlen. generalize (book_in_turn rs db).1. clear db.
  induction rs as [|r rs IH]; intros [|resp resps] Hlen; simplify_eq/=; [done|].
  by rewrite IH.
Qed.

(** C1, as the handler has it: of N booking requests for one available
    slot that are served one after the other, the first succeeds and books
    the slot, and the other N-1 fail with SlotUnavailable; these are the
    responses under the scheduler that serves the requests in turn. *)
Theorem bookings_in_turn_one_success (r : BookRequest) (rs : list BookRequest)
    (db : DB) (s : Slot) :
  slots db !! b_slotId r = Some s → s_status s = available →
  Forall (λ r', b_slotId r' = b_slotId r) rs →
  ∃ resp db',
    book_in_turn (r :: rs) db
    = (Ok resp :: replicate (length rs) (Err SlotUnavailable), db') ∧
    responses (run_schedule (in_turn (length (r :: rs))) (start (r :: rs) db))
    = Some (Ok resp) :: replicate (length rs) (Some (Err SlotUnavailable)) ∧
    s_status <$> slots db' !! b_slotId r = Some booked ∧
    s_scholar_id <$> slots db' !! b_slotId r = Some (Some (au_id (b_caller r))).
Proof.
  intros Hs Ha Hall. rewrite responses_in_turn. simpl.
  rewrite (bookSlot_available r db s Hs Ha).
  rewrite (book_in_turn_unavailable rs _ (b_slotId r) Hall).
  - eexists _, _. split; [done|]. simpl. rewrite fmap_replicate.
    split; [done|]. by rewrite lookup_alter_eq, Hs.
  - intros s'. simpl. rewrite lookup_alter_eq, Hs. simpl. by intros [= <-].
Qed.

Lemma bookings_in_turn_one_success_witness :
  ∃ resp db',
    book_in_turn [book_s_0; book_s2_0] db_one_slot = ([Ok resp; Err SlotUnavailable], db').
Proof.
  destruct (bookings_in_turn_one_success book_s_0 [book_s2_0] db_one_slot
              (mkSlot 2 None 20148 32400 36000 available None None))
    as (resp & db' & Hb & _); [by vm_compute|done|by repeat constructor|].
  exists resp, db'. exact Hb.
Defined.

(** The same two requests under the scheduler: served in turn the second
    fails, as above. *)
Example bookings_in_turn_scheduled :
  let final := run_schedule (in_turn 2) (start [book_s_0; book_s2_0] db_one_slot) in
  succeeded final = 1%nat ∧ failed_with SlotUnavailable final = 1%nat.
Proof. by vm_compute. Qed.

(** C1, as stated, fails: two requests for the available slot 0 whose
    fetches both run before either update are both answered with success;
    none fails with SlotUnavailable, and the second update replaces the
    first booking.  The update is keyed by the slot id alone. *)
Lemma concurrent_bookings_both_succeed :
  let final :=
    run_schedule [0; 1; 0; 1; 0; 1; 0; 1]%nat (start [book_s_0; book_s2_0] db_one_slot) in
  s_status <$> slots db_one_slot !! 0%nat = Some available ∧
  succeeded final = 2%nat ∧ failed_with SlotUnavailable final = 0%nat ∧
  s_scholar_id <$> slots final.2 !! 0%nat = Some (Some (au_id sch2)).
Proof. by vm_compute. Qed.

(** ** The role stores between requests *)

Lemma store_invariant_ext db db' :
  users db' = users db → user_roles db' = user_roles db →
  store_invariant db → store_invariant db'.
Proof.
  unfold store_invariant, users_have_roles, roles_in_sync. by intros -> ->.
Qed.

Lemma invariant_put_user db id row :
  store_invariant db →
  user_roles db !! u_email row = Some (u_role row) →
  (∀ k v, users db !! k = Some v → u_email v = u_email row → k = id) →
  store_invariant (with_users (λ _, <[id := row]> (users db)) db).
Proof.
  intros (Hu & Hh & Hs) Hrow Hid. split; [|split]; simpl.
  - apply emails_unique_spec. intros i j u v Hi Hj He.
    apply lookup_insert_Some in Hi as [[<- <-]|[Hni Hi]];
      apply lookup_insert_Some in Hj as [[<- <-]|[Hnj Hj]].
    + done.
    + symmetry. by apply (Hid j v).
    + by apply (Hid i u).
    + by apply (proj1 (emails_unique_spec _) Hu i j u v).
  - intros i u Hi. simpl in *.
    apply lookup_insert_Some in Hi as [[<- <-]|[Hni Hi]]; [by rewrite Hrow|].
    by apply (Hh i u).
  - apply roles_in_sync_spec. intros i u r Hi Hr. simpl in *.
    apply lookup_insert_Some in Hi as [[<- <-]|[Hni Hi]]; [congruence|].
    by apply (proj1 (roles_in_sync_spec _) Hs i u r).
Qed.

Lemma invariant_add_role db email r :
  store_invariant db →
  (∀ k v, users db !! k = Some v → u_email v ≠ email) →
  store_invariant (with_user_roles (<[email := r]>) db).
Proof.
  intros (Hu & Hh & Hs) Hno. split; [done|split]; simpl.
  - intros i u Hi. simpl in *. rewrite lookup_insert_ne by (by apply not_eq_sym, (Hno i u)).
    by apply (Hh i u).
  - apply roles_in_sync_spec. intros i u r' Hi Hr. simpl in *.
    rewrite lookup_insert_ne in Hr by (by apply not_eq_sym, (Hno i u)).
    by apply (proj1 (roles_in_sync_spec _) Hs i u r').
Qed.

Lemma googleLogin_invariant now p db :
  store_invariant db → store_invariant (googleLogin now p db).2.
Proof.
  intros Hinv. unfold googleLogin. by_key_only (g_email p).
  destruct (user_roles db !! g_email p) as [r0|] eqn:Hr; simpl.
  - destruct (select_single _ (users db)) as [[id user]|] eqn:Hsel.
    + apply select_by_email_Some in Hsel as [Hid He].
      unfold users_update. destruct (decide _); [done|]. simpl.
      apply invariant_put_user; simpl; [done|by rewrite He|].
      intros k v Hk Hv. destruct Hinv as (Hu & _).
      apply (proj1 (emails_unique_spec _) Hu k id v user); congruence.
    + unfold users_insert. destruct (decide _); [done|]. simpl.
      apply invariant_put_user; simpl; [done..|].
      intros k v Hk Hv. destruct Hinv as (Hu & _).
      by destruct (select_by_email_None _ _ Hu Hsel k v).
  - assert (∀ k v, users db !! k = Some v → u_email v ≠ g_email p) as Hno.
    { intros k v Hk He. destruct Hinv as (_ & Hh & _).
      destruct (Hh k v Hk) as [r Hsome]. congruence. }
    assert (default (user_roles db) (roles_insert (g_email p) scholar (user_roles db))
            = <[g_email p := scholar]> (user_roles db)) as Hins.
    { unfold roles_insert. by rewrite Hr. }
    rewrite select_by_email_absent by done.
    pose proof (invariant_add_role db (g_email p) scholar Hinv Hno) as Hinv1.
    unfold users_insert. destruct (decide _); simpl.
    + eapply store_invariant_ext; [| |exact Hinv1]; [done|by simpl].
    + eapply store_invariant_ext;
        [| |apply (invariant_put_user _ (new_id (users db))
                     (mkUser (g_email p) (g_name p) (g_picture p) (Some (g_sub p))
                             scholar now) Hinv1)]; simpl; [done|done|..].
      * by rewrite lookup_insert_eq.
      * intros k v Hk Hv. by destruct (Hno k v).
Qed.

Lemma users_have_roles_mono db db' :
  (∀ id u', users db' !! id = Some u' →
     ∃ u, users db !! id = Some u ∧ u_email u' = u_email u) →
  (∀ e, is_Some (user_roles db !! e) → is_Some (user_roles db' !! e)) →
  users_have_roles db → users_have_roles db'.
Proof.
  intros Husers Hroles Hh id u' Hid. simpl.
  destruct (Husers id u' Hid) as (u & Hu & ->). apply Hroles. by apply (Hh id u).
Qed.

Lemma updateUserRole_invariant caller userId role db :
  store_invariant db → store_invariant (updateUserRole caller userId role db).2.
Proof.
  intros (Hu & Hh & Hs).
  destruct (updateUserRole_keeps_sync caller userId role db Hu Hs) as [Hu' Hs'].
  split; [done|split; [|done]]. revert Hh. rewrite updateUserRole_eq.
  destruct (role_of_string role) as [r|]; [|done].
  destruct (decide (userId = uuid_out (au_id caller))); [done|].
  destruct (uuid_in userId) as [k|]; [|done].
  destruct (users db !! k) as [target|] eqn:Ht; [|done]. simpl.
  apply users_have_roles_mono; simpl.
  - intros id u' Hid.
    apply lookup_alter_Some in Hid as [(_ & u & Hid & ->)|[_ Hid]]; eauto.
  - intros e He. destruct (decide (u_email target = e)) as [->|];
      [by rewrite lookup_insert_eq|by rewrite lookup_insert_ne].
Qed.

Lemma setRoleByEmail_invariant caller email role db :
  store_invariant db → store_invariant (setRoleByEmail caller email role db).2.
Proof.
  intros (Hu & Hh & Hs).
  destruct (setRoleByEmail_keeps_sync caller email role db Hu Hs) as [Hu' Hs'].
  split; [done|split; [|done]]. revert Hh. unfold setRoleByEmail.
  destruct (bool_decide (email = "") || bool_decide (role = "")); [done|].
  destruct (role_of_string role) as [r|]; [|done].
  destruct (decide (email = au_email caller)); [done|]. simpl.
  assert (∀ e', is_Some (user_roles db !! e') →
                is_Some (<[email := r]> (user_roles db) !! e')) as Hroles.
  { intros e' He. destruct (decide (email = e')) as [->|];
      [by rewrite lookup_insert_eq|by rewrite lookup_insert_ne]. }
  destruct (select_single _ (users db)) as [[id0 u0]|]; simpl;
    apply users_have_roles_mono; simpl; eauto.
  intros id u' Hid. apply lookup_fmap_Some in Hid as (u & <- & Hid).
  exists u. by rewrite sync_role_email.
Qed.

Lemma slot_handlers_keep_role_stores tz :
  (∀ caller req db, users (createSlot tz caller req db).2 = users db ∧
                    user_roles (createSlot tz caller req db).2 = user_roles db) ∧
  (∀ r db, users (bookSlot r db).2 = users db ∧
           user_roles (bookSlot r db).2 = user_roles db) ∧
  (∀ caller slotId db, users (deleteSlot caller slotId db).2 = users db ∧
                       user_roles (deleteSlot caller slotId db).2 = user_roles db).
Proof.
  split; [|split].
  - intros. unfold createSlot. by repeat case_match.
  - intros. unfold bookSlot. by repeat case_match.
  - intros. unfold deleteSlot. by repeat case_match.
Qed.

Lemma serve_invariant tz rq db : store_invariant db → store_invariant (serve tz rq db).
Proof.
  intros Hinv. destruct (slot_handlers_keep_role_stores tz) as (Hc & Hb & Hd).
  destruct rq; simpl.
  - by apply googleLogin_invariant.
  - unfold route_updateUserRole.
    destruct (requiring_cases [admin] caller (updateUserRole caller userId role) db) as [-> | ->];
      [by apply updateUserRole_invariant|done].
  - unfold route_setRoleByEmail.
    destruct (requiring_cases [admin] caller (setRoleByEmail caller email role) db) as [-> | ->];
      [by apply setRoleByEmail_invariant|done].
  - destruct (requiring_cases [faculty; admin] caller (createSlot tz caller req) db) as [-> | ->];
      [|done]. eapply store_invariant_ext; [apply Hc..|done].
  - destruct (requiring_cases [scholar] (b_caller r) (bookSlot r) db) as [-> | ->];
      [|done]. eapply store_invariant_ext; [apply Hb..|done].
  - destruct (requiring_cases [faculty; admin] caller (deleteSlot caller slotId) db) as [-> | ->];
      [|done]. eapply store_invariant_ext; [apply Hd..|done].
Qed.

(** Whatever requests have been served since the store was empty, the
    identities have distinct emails, each has a role assignment, and the
    two roles agree. *)
Lemma served_store_invariant tz rqs : store_invariant (serve_all tz rqs empty_db).
Proof.
  assert (∀ db, store_invariant db → store_invariant (serve_all tz rqs db)) as Hall.
  { induction rqs as [|rq rqs IH]; intros db Hinv; [done|].
    simpl. apply IH. by apply serve_invariant. }
  apply Hall. repeat split; simpl; by intros ? ? ?; rewrite ?lookup_empty.
Qed.

(** ** The scenarios of the specification *)

(** F publishes 09:00-10:00; F's 09:30-10:30 is refused; S books the slot;
    S2 finds it unavailable; F may not delete it. *)
Example scenario_booking :
  let '(created, db1) := requiring [faculty; admin] fac (createSlot utc fac slot_9_10) db_people in
  let '(refused, db2) := requiring [faculty; admin] fac (createSlot utc fac slot_930_1030) db1 in
  let '(booked_by_s, db3) := requiring [scholar] sch (bookSlot book_s_0) db2 in
  let '(second, db4) := requiring [scholar] sch2 (bookSlot book_s2_0) db3 in
  let '(deleted, db5) := requiring [faculty; admin] fac (deleteSlot fac 0) db4 in
  created = Ok (0%nat, mkSlot 2 None 20148 32400 36000 available None None) ∧
  refused = Err SlotConflict ∧
  booked_by_s
  = Ok (0%nat,
        mkSlot 2 (Some 3%nat) 20148 32400 36000 booked (Some "demo")
               (Some "https://meet.google.com/abc-defg-hij"),
        Some "https://meet.google.com/abc-defg-hij") ∧
  second = Err SlotUnavailable ∧
  deleted = Err Forbidden ∧
  db5 = db3.
Proof. by vm_compute. Qed.

(** The admin assigns faculty to new@x.com before its first login. *)
Example scenario_preassigned_role :
  let '(assigned, db1) := route_setRoleByEmail root "new@x.com" "faculty" db_people in
  let '(logged_in, db2) := googleLogin 5 new_payload db1 in
  assigned = Ok ("new@x.com", faculty, false) ∧
  logged_in = Ok (5%nat, mkUser "new@x.com" "New" None (Some "g-new") faculty 5) ∧
  user_roles db2 !! "new@x.com" = Some faculty.
Proof. by vm_compute. Qed.

(** * Further properties of the handlers *)

(** ** Creation, deletion and listing together *)

Lemma createSlot_Ok tz caller req db id slot db1 :
  createSlot tz caller req db = (Ok (id, slot), db1) →
  start_time req < end_time req ∧
  size (overlapping_slots (au_id caller) (toDateOnly (date req))
          (toTimeOnly tz (start_time req)) (toTimeOnly tz (end_time req)) (slots db)) = 0%nat ∧
  id = new_id (slots db) ∧
  slot = mkSlot (au_id caller) None (toDateOnly (date req))
                (toTimeOnly tz (start_time req)) (toTimeOnly tz (end_time req))
                available None None ∧
  db1 = with_slots (<[id := slot]>) db.
Proof.
  unfold createSlot. case_bool_decide as Hrange; [done|].
  case_bool_decide as Hsz; [done|]. intros [= <- <- <-].
  repeat split; lia.
Qed.

(** X1: an accepted creation is undone by the owner's deletion of the new
    slot: the deletion succeeds and the store is again the store from
    before the creation. *)
Theorem createSlot_deleteSlot_round_trip (tz : Z → Z) (caller : AuthUser)
    (req : SlotRequest) (db db1 : DB) (id : nat) (slot : Slot) :
  createSlot tz caller req db = (Ok (id, slot), db1) →
  deleteSlot caller id db1 = (Ok (), db).
Proof.
  intros Hc. apply createSlot_Ok in Hc as (_ & _ & -> & -> & ->).
  rewrite deleteSlot_eq. simpl. rewrite lookup_insert_eq. simpl.
  rewrite decide_True by done.
  destruct db as [us rs sl]. unfold with_slots. simpl. do 2 f_equal.
  apply delete_insert_id, new_id_fresh.
Qed.

Lemma createSlot_deleteSlot_round_trip_witness :
  deleteSlot fac 0 db_one_slot = (Ok (), db_people).
Proof.
  apply (createSlot_deleteSlot_round_trip utc fac slot_9_10 db_people db_one_slot 0
           (mkSlot 2 None 20148 32400 36000 available None None)).
  by vm_compute.
Defined.

(** X2: an accepted creation cannot be repeated: the same request of the
    same caller on the resulting store is answered SlotConflict and changes
    nothing (the third disjunct of the overlap query holds between a slot
    and itself). *)
Theorem createSlot_repeat_conflicts (tz : Z → Z) (caller : AuthUser)
    (req : SlotRequest) (db db1 : DB) (id : nat) (slot : Slot) :
  createSlot tz caller req db = (Ok (id, slot), db1) →
  createSlot tz caller req db1 = (Err SlotConflict, db1).
Proof.
  intros Hc. apply createSlot_Ok in Hc as (Hrange & _ & -> & -> & ->).
  unfold createSlot. rewrite bool_decide_eq_false_2 by lia.
  rewrite bool_decide_eq_true_2; [done|].
  apply overlapping_slots_conflicting. eexists _, _. simpl.
  split; [apply lookup_insert_eq|]. unfold three_way_overlap. simpl.
  split; [done|]. split; [done|]. lia.
Qed.

Lemma createSlot_repeat_conflicts_witness :
  createSlot utc fac slot_9_10 db_one_slot = (Err SlotConflict, db_one_slot).
Proof.
  apply (createSlot_repeat_conflicts utc fac slot_9_10 db_people db_one_slot 0
           (mkSlot 2 None 20148 32400 36000 available None None)).
  by vm_compute.
Defined.

(** X3: between intervals that are not empty the overlap query is exact.
    When the new interval and the stored intervals of the faculty on the
    date all end after they start, the request is answered SlotConflict
    exactly when a stored interval shares an instant with the new one; a
    slot that begins where another ends is accepted. *)
Theorem createSlot_conflict_exact (tz : Z → Z) (caller : AuthUser) (req : SlotRequest)
    (db : DB) :
  let startTimeOnly := toTimeOnly tz (start_time req) in
  let endTimeOnly := toTimeOnly tz (end_time req) in
  let dateOnly := toDateOnly (date req) in
  start_time req < end_time req →
  startTimeOnly < endTimeOnly →
  (∀ id s, slots db !! id = Some s → s_faculty_id s = au_id caller → s_date s = dateOnly →
           s_start_time s < s_end_time s) →
  createSlot tz caller req db = (Err SlotConflict, db) ↔
  ∃ id s, slots db !! id = Some s ∧ s_faculty_id s = au_id caller ∧ s_date s = dateOnly ∧
          s_start_time s < endTimeOnly ∧ startTimeOnly < s_end_time s.
Proof.
  intros S E d Hrange HSE Hstored. unfold createSlot. fold S E d.
  rewrite bool_decide_eq_false_2 by lia.
  destruct (bool_decide (0 < size (overlapping_slots (au_id caller) d S E (slots db)))%nat)
    eqn:Hsz.
  - apply bool_decide_eq_true in Hsz. apply overlapping_slots_conflicting in Hsz.
    split; [intros _|done].
    destruct Hsz as (id & s & Hs & Hf & Hd & Ho). exists id, s.
    pose proof (Hstored id s Hs Hf Hd). unfold three_way_overlap in Ho.
    repeat split; try done; lia.
  - apply bool_decide_eq_false in Hsz. rewrite overlapping_slots_conflicting in Hsz.
    split; [done|]. intros (id & s & Hs & Hf & Hd & Hlt1 & Hlt2). destruct Hsz.
    exists id, s. pose proof (Hstored id s Hs Hf Hd).
    repeat split; try done. unfold three_way_overlap. lia.
Qed.

Lemma createSlot_conflict_exact_witness :
  ¬ createSlot utc fac (mkSlotRequest (day0 + 10 * hour) (day0 + 11 * hour) day0) db_one_slot
    = (Err SlotConflict, db_one_slot).
Proof.
  intros Hconf.
  apply (createSlot_conflict_exact utc fac _ db_one_slot) in Hconf as
      (id & s & Hs & _ & _ & Hlt & Hgt); [|by vm_compute..|].
  - destruct (decide (id = 0%nat)) as [->|Hne].
    + vm_compute in Hs. by simplify_eq.
    + assert (slots db_one_slot !! id = None) as Hnone; [|congruence].
      change (slots db_one_slot) with
        ({[ 0%nat := mkSlot 2 None 20148 32400 36000 available None None ]} : gmap nat Slot).
      by apply lookup_singleton_ne.
  - intros id s Hs _ _.
    destruct (decide (id = 0%nat)) as [->|Hne].
    + vm_compute in Hs. by simplify_eq.
    + assert (slots db_one_slot !! id = None) as Hnone; [|congruence].
      change (slots db_one_slot) with
        ({[ 0%nat := mkSlot 2 None 20148 32400 36000 available None None ]} : gmap nat Slot).
      by apply lookup_singleton_ne.
Defined.

(** Membership in the three listings of the slots router. *)
Lemma elem_of_listAvailableSlots now faculty_id date db id s :
  (id, s) ∈ listAvailableSlots now faculty_id date db ↔
  slots db !! id = Some s ∧ s_status s = available ∧ toDateOnly now <= s_date s ∧
  (∀ f, faculty_id = Some f → s_faculty_id s = f) ∧
  (∀ d, date = Some d → s_date s = d).
Proof.
  unfold listAvailableSlots. rewrite merge_sort_Permutation, elem_of_map_to_list.
  assert (∀ (A : Type) (x y : A), (∀ z, Some x = Some z → y = z) ↔ y = x) as Hsome.
  { intros A x y. split; [intros Hz; by apply Hz|by intros -> z [= <-]]. }
  assert (∀ (A : Type) (y : A), (∀ z, @None A = Some z → y = z) ↔ True) as Hnone.
  { intros A y. split; [done|by intros _ z [=]]. }
  destruct faculty_id as [f|], date as [d|];
    rewrite ?map_lookup_filter_Some, ?Hsome, ?Hnone; simpl; tauto.
Qed.

(** X4: a creation accepts any date, also a past one; the new slot is in
    the listing of the available slots exactly when its date is today (the
    UTC day of the clock) or later. *)
Theorem created_slot_listed_iff_upcoming (tz : Z → Z) (caller : AuthUser)
    (req : SlotRequest) (db db1 : DB) (id : nat) (slot : Slot) (now : Z) :
  createSlot tz caller req db = (Ok (id, slot), db1) →
  (id, slot) ∈ listAvailableSlots now None None db1 ↔
  toDateOnly now <= toDateOnly (date req).
Proof.
  intros Hc. apply createSlot_Ok in Hc as (_ & _ & -> & -> & ->).
  rewrite elem_of_listAvailableSlots. simpl. rewrite lookup_insert_eq.
  split; [tauto|]. intros Hd. repeat split; done.
Qed.

Lemma created_slot_listed_iff_upcoming_witness :
  (0%nat, mkSlot 2 None 20148 32400 36000 available None None)
    ∈ listAvailableSlots (day0 + 5 * hour) None None db_one_slot ∧
  (0%nat, mkSlot 2 None 20148 32400 36000 available None None)
    ∉ listAvailableSlots (day0 + 24 * hour) None None db_one_slot.
Proof.
  pose proof (created_slot_listed_iff_upcoming utc fac slot_9_10 db_people db_one_slot 0
                (mkSlot 2 None 20148 32400 36000 available None None)) as Hiff.
  split.
  - apply Hiff; by vm_compute.
  - intros Hin. apply Hiff in Hin; [|by vm_compute]. vm_compute in Hin. done.
Defined.

(** ** Booking *)

(** X5: booking an available slot touches that slot alone.  The response
    is a success whatever the provisioning service did; the slot keeps its
    owner, date and times and becomes booked by the caller, with the notes
    as [notes || null] and the link of the service when it returned one;
    every other slot and both role tables are as before. *)
Theorem bookSlot_touches_only_the_slot (r : BookRequest) (db : DB) (s : Slot) :
  slots db !! b_slotId r = Some s → s_status s = available →
  ∃ s' link db',
    bookSlot r db = (Ok ((b_slotId r, s'), link), db') ∧
    slots db' !! b_slotId r = Some s' ∧
    (∀ id, id ≠ b_slotId r → slots db' !! id = slots db !! id) ∧
    users db' = users db ∧ user_roles db' = user_roles db ∧
    s_faculty_id s' = s_faculty_id s ∧ s_date s' = s_date s ∧
    s_start_time s' = s_start_time s ∧ s_end_time s' = s_end_time s ∧
    s_status s' = booked ∧ s_scholar_id s' = Some (au_id (b_caller r)) ∧
    s_notes s' = notes_or_null (b_notes r) ∧
    (∀ l, b_outcome r = Provisioned (Some l) → link = Some l ∧ s_meeting_link s' = Some l).
Proof.
  intros Hs Ha. eexists _, _, _. split; [by apply (bookSlot_available r db s)|].
  simpl. rewrite lookup_alter_eq, Hs. simpl. split; [done|].
  split; [intros id Hne; by rewrite lookup_alter_ne|].
  repeat split; try done; intros; by match goal with H : b_outcome r = _ |- _ => rewrite H end.
Qed.

Lemma bookSlot_touches_only_the_slot_witness :
  ∃ s' db',
    bookSlot book_s_0 db_one_slot
    = (Ok ((0%nat, s'), Some "https://meet.google.com/abc-defg-hij"), db') ∧
    s_notes s' = Some "demo" ∧ s_scholar_id s' = Some 3%nat.
Proof.
  destruct (bookSlot_touches_only_the_slot book_s_0 db_one_slot
              (mkSlot 2 None 20148 32400 36000 available None None))
    as (s' & link & db' & Hb & _ & _ & _ & _ & _ & _ & _ & _ & _ & Hsch & Hn & Hl);
    [by vm_compute..|].
  destruct (Hl "https://meet.google.com/abc-defg-hij" eq_refl) as [-> _].
  exists s', db'. split; [exact Hb|]. split; [exact Hn|exact Hsch].
Defined.

(** X6: when the provisioning service returns an event without a link
    ([hangoutLink] and the first entry point both missing), the booking
    still succeeds; the update then carries no [meeting_link], so the slot
    becomes booked with the link it had: none, for a slot that was never
    booked. *)
Theorem booking_without_link (r : BookRequest) (db : DB) (s : Slot) :
  slots db !! b_slotId r = Some s → s_status s = available →
  b_outcome r = Provisioned None →
  ∃ s' db',
    bookSlot r db = (Ok ((b_slotId r, s'), None), db') ∧
    slots db' !! b_slotId r = Some s' ∧
    s_status s' = booked ∧ s_meeting_link s' = s_meeting_link s.
Proof.
  intros Hs Ha Hout. pose proof (bookSlot_available r db s Hs Ha) as Hb.
  simpl in Hb. rewrite Hout in Hb. simpl in Hb.
  eexists _, _. split; [exact Hb|]. simpl. by rewrite lookup_alter_eq, Hs.
Qed.

Lemma booking_without_link_witness :
  ∃ s' db',
    bookSlot (mkBookRequest sch 0 None (Provisioned None) (λ _, 0)) db_one_slot
    = (Ok ((0%nat, s'), None), db') ∧
    s_status s' = booked ∧ s_meeting_link s' = None.
Proof.
  destruct (booking_without_link (mkBookRequest sch 0 None (Provisioned None) (λ _, 0))
              db_one_slot (mkSlot 2 None 20148 32400 36000 available None None))
    as (s' & db' & Hb & _ & Hst & Hl); [by vm_compute..|].
  exists s', db'. split; [exact Hb|]. split; [exact Hst|exact Hl].
Defined.

(** ** Requests that fail *)

(** X7: a refusal comes before the first write.  When a slots handler or
    a role handler answers with a failure of a status below 500 (400, 403,
    404 or 409: the refusals it decides itself), the store after the
    request is the store before it. *)
Theorem refused_request_changes_nothing (tz : Z → Z) (db : DB) (e : Failure) :
  (http_status e < 500)%nat →
  (∀ caller req, (createSlot tz caller req db).1 = Err e →
                 (createSlot tz caller req db).2 = db) ∧
  (∀ r, (bookSlot r db).1 = Err e → (bookSlot r db).2 = db) ∧
  (∀ caller slotId, (deleteSlot caller slotId db).1 = Err e →
                    (deleteSlot caller slotId db).2 = db) ∧
  (∀ caller userId role, (updateUserRole caller userId role db).1 = Err e →
                         (updateUserRole caller userId role db).2 = db) ∧
  (∀ caller email role, (setRoleByEmail caller email role db).1 = Err e →
                        (setRoleByEmail caller email role db).2 = db).
Proof.
  intros Hstatus. repeat split.
  - intros caller req. unfold createSlot. by repeat case_bool_decide.
  - intros r. unfold bookSlot.
    destruct (select_single _ (slots db)) as [[id slot]|]; [|done]. simpl.
    destruct (select_single _ _) as [row|]; simpl; [done|].
    intros [= <-]. simpl in Hstatus. lia.
  - intros caller slotId. rewrite deleteSlot_eq. by repeat case_match.
  - intros caller userId role. unfold updateUserRole.
    destruct (role_of_string role) as [r|]; [|done].
    destruct (decide _); [done|].
    destruct (select_by_id userId (users db)) as [[id targetUser]|]; [|done]. simpl.
    destruct (select_by_id userId _) as [row|]; simpl; [done|].
    intros [= <-]. simpl in Hstatus. lia.
  - intros caller email role. unfold setRoleByEmail. by repeat case_match.
Qed.

Lemma refused_request_changes_nothing_witness :
  (createSlot utc fac slot_930_1030 db_one_slot).2 = db_one_slot ∧
  (bookSlot book_s2_0 db_booked).2 = db_booked ∧
  (deleteSlot fac 0 db_booked).2 = db_booked ∧
  (updateUserRole root (uuid_out 9) "faculty" db_people).2 = db_people ∧
  (setRoleByEmail root "s@x.com" "dean" db_people).2 = db_people.
Proof.
  destruct (refused_request_changes_nothing utc db_one_slot SlotConflict) as (H1 & _);
    [simpl; lia|].
  destruct (refused_request_changes_nothing utc db_booked SlotUnavailable) as (_ & H2 & _);
    [simpl; lia|].
  destruct (refused_request_changes_nothing utc db_booked Forbidden) as (_ & _ & H3 & _);
    [simpl; lia|].
  destruct (refused_request_changes_nothing utc db_people NotFound) as (_ & _ & _ & H4 & _);
    [simpl; lia|].
  destruct (refused_request_changes_nothing utc db_people InvalidRole) as (_ & _ & _ & _ & H5);
    [simpl; lia|].
  split; [apply H1; by vm_compute|]. split; [apply H2; by vm_compute|].
  split; [apply H3; by vm_compute|]. split; [apply H4; by vm_compute|].
  apply H5; by vm_compute.
Defined.

(** ** What a stored slot looks like *)

Lemma toTimeOnly_range tz t : 0 <= toTimeOnly tz t < 86400.
Proof. unfold toTimeOnly. apply Z.mod_pos_bound. lia. Qed.

Lemma serve_slots_cases tz rq db :
  slots (serve tz rq db) = slots db ∨
  (∃ caller req, slots (serve tz rq db) = slots (createSlot tz caller req db).2) ∨
  (∃ r, slots (serve tz rq db) = slots (bookSlot r db).2) ∨
  (∃ caller slotId, slots (serve tz rq db) = slots (deleteSlot caller slotId db).2).
Proof.
  destruct rq; simpl.
  - left. apply googleLogin_slots.
  - left. unfold route_updateUserRole.
    destruct (requiring_cases [admin] caller (updateUserRole caller userId role) db) as [-> | ->];
      [apply updateUserRole_slots|done].
  - left. unfold route_setRoleByEmail.
    destruct (requiring_cases [admin] caller (setRoleByEmail caller email role) db) as [-> | ->];
      [apply setRoleByEmail_slots|done].
  - destruct (requiring_cases [faculty; admin] caller (createSlot tz caller req) db) as [-> | ->];
      [right; left; eauto|by left].
  - destruct (requiring_cases [scholar] (b_caller r) (bookSlot r) db) as [-> | ->];
      [right; right; left; eauto|by left].
  - destruct (requiring_cases [faculty; admin] caller (deleteSlot caller slotId) db) as [-> | ->];
      [right; right; right; eauto|by left].
Qed.

Lemma serve_slots_wellformed tz rq db :
  map_Forall (λ _ s, slot_wellformed s) (slots db) →
  map_Forall (λ _ s, slot_wellformed s) (slots (serve tz rq db)).
Proof.
  intros Hwf.
  destruct (serve_slots_cases tz rq db)
    as [-> | [(caller & req & ->) | [(r & ->) | (caller & slotId & ->)]]]; [done|..].
  - unfold createSlot. repeat case_bool_decide; try done. simpl.
    apply map_Forall_insert_2; [|done].
    split; [left; done|]. simpl. split; apply toTimeOnly_range.
  - unfold bookSlot. repeat case_match; try done; simpl.
    all: intros id s' Hid; apply lookup_alter_Some in Hid as [(_ & s0 & Hid & ->)|[_ Hid]];
      [|by apply (Hwf id)].
    all: destruct (Hwf id s0 Hid) as (_ & Hst & Hen); split; [right; simpl; eauto|done].
  - rewrite deleteSlot_eq. repeat case_match; try done; simpl.
    by apply map_Forall_delete.
Qed.

(** X8: every slot the service ever stores, starting from the empty store,
    is available without scholar, notes or link, or booked by a scholar -
    no handler produces a cancelled or completed slot - and its start and
    end are times of day between 00:00:00 and 23:59:59. *)
Theorem served_slots_wellformed (tz : Z → Z) (rqs : list Request) (id : nat) (s : Slot) :
  slots (serve_all tz rqs empty_db) !! id = Some s → slot_wellformed s.
Proof.
  assert (∀ db, map_Forall (λ _ s, slot_wellformed s) (slots db) →
                map_Forall (λ _ s, slot_wellformed s) (slots (serve_all tz rqs db))) as Hall.
  { induction rqs as [|rq rqs IH]; intros db Hwf; [done|].
    simpl. apply IH. by apply serve_slots_wellformed. }
  apply (Hall empty_db). apply map_Forall_empty.
Qed.

Lemma served_slots_wellformed_witness :
  slot_wellformed (mkSlot 2 None 20148 39600 43200 available None None).
Proof. apply (served_slots_wellformed utc three_creations 1). by vm_compute. Defined.

(** ** The caller's own listings *)

Lemma elem_of_myBookings caller db id s :
  (id, s) ∈ myBookings caller db ↔
  slots db !! id = Some s ∧ s_scholar_id s = Some (au_id caller).
Proof.
  unfold myBookings.
  by rewrite merge_sort_Permutation, elem_of_map_to_list, map_lookup_filter_Some.
Qed.

Lemma elem_of_mySlots caller db id s :
  (id, s) ∈ mySlots caller db ↔ slots db !! id = Some s ∧ s_faculty_id s = au_id caller.
Proof.
  unfold mySlots.
  by rewrite merge_sort_Permutation, elem_of_map_to_list, map_lookup_filter_Some.
Qed.

(** X9: my-bookings holds exactly the slots whose scholar is the caller and
    my-slots exactly the slots whose faculty is the caller, of every status
    and date, each once, ordered by date and then by start time. *)
Theorem own_listings_exact (caller : AuthUser) (db : DB) :
  (∀ id s, (id, s) ∈ myBookings caller db ↔
           slots db !! id = Some s ∧ s_scholar_id s = Some (au_id caller)) ∧
  (∀ id s, (id, s) ∈ mySlots caller db ↔
           slots db !! id = Some s ∧ s_faculty_id s = au_id caller) ∧
  NoDup (myBookings caller db) ∧ NoDup (mySlots caller db) ∧
  StronglySorted slot_order (myBookings caller db) ∧
  StronglySorted slot_order (mySlots caller db).
Proof.
  split; [intros; apply elem_of_myBookings|].
  split; [intros; apply elem_of_mySlots|].
  unfold myBookings, mySlots.
  repeat split; try (rewrite merge_sort_Permutation; apply NoDup_map_to_list);
    apply StronglySorted_merge_sort; apply _.
Qed.

(** X10: a successful booking moves the slot between the listings: it is
    in the scholar's my-bookings and still in its faculty's my-slots, and
    no listing of the available slots, with any clock and filters, holds
    it any more. *)
Theorem booking_moves_slot (r : BookRequest) (owner : AuthUser) (db : DB) (s : Slot) :
  slots db !! b_slotId r = Some s → s_status s = available →
  s_faculty_id s = au_id owner →
  ∃ s' link db',
    bookSlot r db = (Ok ((b_slotId r, s'), link), db') ∧
    (b_slotId r, s') ∈ myBookings (b_caller r) db' ∧
    (b_slotId r, s') ∈ mySlots owner db' ∧
    ∀ now faculty_id date s'',
      (b_slotId r, s'') ∉ listAvailableSlots now faculty_id date db'.
Proof.
  intros Hs Ha Hown. eexists _, _, _. split; [by apply (bookSlot_available r db s)|].
  rewrite elem_of_myBookings, elem_of_mySlots. simpl. rewrite lookup_alter_eq, Hs. simpl.
  repeat split; try done.
  intros now f d s''. rewrite elem_of_listAvailableSlots. simpl.
  rewrite lookup_alter_eq, Hs. simpl. by intros ([= <-] & ? & _).
Qed.

Lemma booking_moves_slot_witness :
  ∃ s', (0%nat, s') ∈ myBookings sch db_booked ∧ (0%nat, s') ∈ mySlots fac db_booked.
Proof.
  destruct (booking_moves_slot book_s_0 fac db_one_slot
              (mkSlot 2 None 20148 32400 36000 available None None))
    as (s' & link & db' & Hb & Hmine & Hfac & _); [by vm_compute..|].
  assert (db' = db_booked) as <-.
  { change db_booked with (bookSlot book_s_0 db_one_slot).2. by rewrite Hb. }
  by exists s'.
Defined.

(** ** Role changes and logins *)


Lemma googleLogin_returning now p db id u :
  emails_unique (users db) →
  users db !! id = Some u → u_email u = g_email p →
  (∀ j v, users db !! j = Some v → j ≠ id → u_google_id v ≠ Some (g_sub p)) →
  let r := default scholar (user_roles db !! g_email p) in
  let db1 :=
    match user_roles db !! g_email p with
    | Some _ => db
    | None => with_user_roles (<[g_email p := scholar]>) db
    end in
  let picture := match g_picture p with
                 | Some url => Some url
                 | None => u_picture u
                 end in
  let row := mkUser (u_email u) (g_name p) picture (Some (g_sub p)) r now in
  googleLogin now p db = (Ok (id, row), with_users (λ _, <[id := row]> (users db)) db1).
Proof.
  intros Huniq Hid He Hsub r db1 picture row. unfold googleLogin. by_key_only (g_email p).
  assert (select_single (λ row : nat * User, u_email row.2 = g_email p) (users db)
          = Some (id, u)) as Hsel.
  { apply select_single_unique; [done..|]. intros k v Hk Hv. simpl in Hv.
    apply (proj1 (emails_unique_spec _) Huniq k id v u); congruence. }
  assert (∀ r0, ¬ users_clash (Some id)
                  (mkUser (u_email u) (g_name p) picture (Some (g_sub p)) r0 now)
                  (users db)) as Hclash.
  { intros r0 (k & v & Hk & Hne & [Hv|[_ Hv]]); simpl in *.
    - apply Hne. f_equal. by apply (proj1 (emails_unique_spec _) Huniq k id v u).
    - apply (Hsub k v Hk); [congruence|done]. }
  unfold db1, r, row.
  destruct (user_roles db !! g_email p) as [r0|] eqn:Hr; simpl.
  - rewrite Hsel. fold picture. unfold users_update. by rewrite decide_False.
  - rewrite Hsel. fold picture. unfold users_update. rewrite decide_False by done.
    unfold with_users, with_user_roles, roles_insert; simpl. by rewrite Hr.
Qed.

(** X12: a returning user, whose email belongs to one identity and whose
    Google id belongs to no other, is logged in under the same identity:
    no identity is added, the name and Google id are refreshed from the
    token, the picture too when the token has one and otherwise the stored
    picture stays, the last login is the clock, and the role is the role
    assigned to the email (scholar, from then on recorded, if none was). *)
Theorem returning_login_resyncs_role (now : Z) (p : GooglePayload) (db : DB)
    (id : nat) (u : User) :
  emails_unique (users db) →
  users db !! id = Some u → u_email u = g_email p →
  (∀ j v, users db !! j = Some v → j ≠ id → u_google_id v ≠ Some (g_sub p)) →
  let r := default scholar (user_roles db !! g_email p) in
  let picture := match g_picture p with
                 | Some url => Some url
                 | None => u_picture u
                 end in
  let row := mkUser (g_email p) (g_name p) picture (Some (g_sub p)) r now in
  ∃ db', googleLogin now p db = (Ok (id, row), db') ∧
         users db' = <[id := row]> (users db) ∧
         dom (users db') = dom (users db) ∧
         user_roles db' !! g_email p = Some r ∧
         (∀ e, e ≠ g_email p → user_roles db' !! e = user_roles db !! e).
Proof.
  intros Huniq Hid He Hsub r picture row.
  pose proof (googleLogin_returning now p db id u Huniq Hid He Hsub) as Hl.
  cbv zeta in Hl. rewrite He in Hl. eexists. split; [exact Hl|]. simpl.
  split; [done|]. split.
  - apply dom_insert_lookup_L. by rewrite Hid.
  - unfold r. destruct (user_roles db !! g_email p) as [r0|] eqn:Hr; simpl.
    + done.
    + rewrite lookup_insert_eq. split; [done|]. intros e Hne. by rewrite lookup_insert_ne.
Qed.

Lemma returning_login_resyncs_role_witness :
  (∃ db', googleLogin 7 s_payload (updateUserRole root (uuid_out 3) "faculty" db_people).2
          = (Ok (3%nat, mkUser "s@x.com" "S. Cholar" None (Some "g-s") faculty 7), db')) ∧
  (∃ db', googleLogin 7 new_payload (googleLogin 5 pic_payload db_people).2
          = (Ok (5%nat, mkUser "new@x.com" "New" (Some "https://x.com/new.png")
                               (Some "g-new") scholar 7), db')).
Proof.
  split.
  - destruct (returning_login_resyncs_role 7 s_payload
                (updateUserRole root (uuid_out 3) "faculty" db_people).2 3
                (mkUser "s@x.com" "S" None (Some "g-s") faculty 0))
      as (db' & Hl & _).
    + apply (bool_decide_unpack _). by vm_compute.
    + by vm_compute.
    + done.
    + apply (bool_decide_unpack
               (map_Forall (λ j v, j ≠ 3%nat → u_google_id v ≠ Some (g_sub s_payload)) _)).
      by vm_compute.
    + exists db'. exact Hl.
  - destruct (returning_login_resyncs_role 7 new_payload
                (googleLogin 5 pic_payload db_people).2 5
                (mkUser "new@x.com" "New" (Some "https://x.com/new.png") (Some "g-new")
                        scholar 5))
      as (db' & Hl & _).
    + apply (bool_decide_unpack _). by vm_compute.
    + by vm_compute.
    + done.
    + apply (bool_decide_unpack
               (map_Forall (λ j v, j ≠ 5%nat → u_google_id v ≠ Some (g_sub new_payload)) _)).
      by vm_compute.
    + exists db'. exact Hl.
Defined.

(** X13: two logins in a row with the same token create one identity: the
    first creates it, the second returns the same id and role and only
    moves the last login. *)
Theorem login_twice_one_identity (now now' : Z) (p : GooglePayload) (db : DB) :
  emails_unique (users db) →
  (∀ id u, users db !! id = Some u → u_email u ≠ g_email p) →
  (∀ id u, users db !! id = Some u → u_google_id u ≠ Some (g_sub p)) →
  ∃ id u db1 db2,
    googleLogin now p db = (Ok (id, u), db1) ∧
    googleLogin now' p db1
    = (Ok (id, mkUser (u_email u) (u_name u) (u_picture u) (u_google_id u) (u_role u) now'),
       db2) ∧
    users db !! id = None ∧
    dom (users db2) = dom (users db1) ∧ user_roles db2 = user_roles db1.
Proof.
  intros Huniq Hemail Hsub.
  pose proof (googleLogin_first now p db Hemail Hsub) as H1. cbv zeta in H1.
  remember (default scholar (user_roles db !! g_email p)) as r eqn:Hr.
  remember (new_id (users db)) as id eqn:Hid.
  remember (with_users
              (λ _, <[id := mkUser (g_email p) (g_name p) (g_picture p) (Some (g_sub p)) r now]>
                      (users db))
              match user_roles db !! g_email p with
              | Some _ => db
              | None => with_user_roles (<[g_email p := scholar]>) db
              end) as db1 eqn:Hdb1.
  assert (users db1
          = <[id := mkUser (g_email p) (g_name p) (g_picture p) (Some (g_sub p)) r now]>
              (users db)) as Husers.
  { rewrite Hdb1. by destruct (user_roles db !! g_email p). }
  assert (user_roles db1 !! g_email p = Some r) as Hrole.
  { rewrite Hdb1, Hr. destruct (user_roles db !! g_email p) eqn:Hlook; simpl; [done|].
    by rewrite lookup_insert_eq. }
  assert (users db !! id = None) as Hfresh by (rewrite Hid; apply new_id_fresh).
  pose proof (googleLogin_returning now' p db1 id
                (mkUser (g_email p) (g_name p) (g_picture p) (Some (g_sub p)) r now)) as H2.
  cbv zeta in H2. rewrite Hrole in H2. cbn [default u_email u_picture] in H2.
  replace (match g_picture p with Some url => Some url | None => g_picture p end)
    with (g_picture p) in H2 by (by destruct (g_picture p)).
  eexists id, _, db1, _. split; [exact H1|]. split; [|split; [done|]].
  - cbn [u_email u_name u_picture u_google_id u_role]. apply H2.
    + rewrite Husers. apply emails_unique_spec. intros i j a b Hi Hj Hab.
      apply lookup_insert_Some in Hi as [[<- <-]|[Hni Hi]];
        apply lookup_insert_Some in Hj as [[<- <-]|[Hnj Hj]].
      * done.
      * by destruct (Hemail j b Hj).
      * by destruct (Hemail i a Hi).
      * by apply (proj1 (emails_unique_spec _) Huniq i j a b).
    + by rewrite Husers, lookup_insert_eq.
    + done.
    + intros j v Hj Hne. rewrite Husers, lookup_insert_ne in Hj by done.
      by apply (Hsub j v).
  - cbn [users user_roles with_users]. split; [|done].
    rewrite Husers. apply dom_insert_lookup_L. by rewrite lookup_insert_eq.
Qed.

Lemma login_twice_one_identity_witness :
  ∃ id u db1 db2,
    googleLogin 5 new_payload db_people = (Ok (id, u), db1) ∧
    googleLogin 6 new_payload db1
    = (Ok (id, mkUser (u_email u) (u_name u) (u_picture u) (u_google_id u) (u_role u) 6),
       db2) ∧
    users db_people !! id = None.
Proof.
  destruct (login_twice_one_identity 5 6 new_payload db_people)
    as (id & u & db1 & db2 & H1 & H2 & H3 & _).
  - apply (bool_decide_unpack _). by vm_compute.
  - apply (bool_decide_unpack
             (map_Forall (λ _ u, u_email u ≠ g_email new_payload) (users db_people))).
    by vm_compute.
  - apply (bool_decide_unpack
             (map_Forall (λ _ u, u_google_id u ≠ Some (g_sub new_payload)) (users db_people))).
    by vm_compute.
  - exists id, u, db1, db2. split; [exact H1|]. split; [exact H2|exact H3].
Defined.

(** X14: a first login that fails leaves a trace.  When the email is
    unknown (no identity, no role assignment) but the Google id of the
    token is bound to another identity, the login fails with InternalError
    and creates no identity, yet the default assignment scholar for the
    email, written before the insert of the user, stays in the store. *)
Theorem failed_first_login_keeps_role_row (now : Z) (p : GooglePayload) (db : DB)
    (k : nat) (v : User) :
  user_roles db !! g_email p = None →
  (∀ id u, users db !! id = Some u → u_email u ≠ g_email p) →
  users db !! k = Some v → u_google_id v = Some (g_sub p) →
  googleLogin now p db
  = (Err InternalError, with_user_roles (<[g_email p := scholar]>) db).
Proof.
  intros Hr Hemail Hk Hv. unfold googleLogin. by_key_only (g_email p).
  rewrite Hr. simpl. rewrite select_by_email_absent by done.
  unfold users_insert. rewrite decide_True.
  - unfold with_user_roles, roles_insert. simpl. by rewrite Hr.
  - exists k, v. simpl. split; [done|]. split; [done|]. right. split; [by eexists|done].
Qed.

Lemma failed_first_login_keeps_role_row_witness :
  (googleLogin 5 clash_payload db_people).1 = Err InternalError ∧
  users (googleLogin 5 clash_payload db_people).2 = users db_people ∧
  user_roles (googleLogin 5 clash_payload db_people).2 !! "other@x.com" = Some scholar.
Proof.
  rewrite (failed_first_login_keeps_role_row 5 clash_payload db_people 2
             (mkUser "f@x.com" "F" None (Some "g-f") faculty 0)).
  - by vm_compute.
  - by vm_compute.
  - apply (bool_decide_unpack
             (map_Forall (λ _ u, u_email u ≠ g_email clash_payload) (users db_people))).
    by vm_compute.
  - by vm_compute.
  - done.
Defined.

(** ** The AvailableSlots page: slots grouped by date *)

Lemma groupSlotsByDate_snoc l x :
  groupSlotsByDate (l ++ [x]) = push_group (s_date x.2) x (groupSlotsByDate l).
Proof. unfold groupSlotsByDate. by rewrite foldl_snoc. Qed.

Lemma push_group_keys d x G :
  (push_group d x G).*1 = if decide (d ∈ G.*1) then G.*1 else G.*1 ++ [d].
Proof.
  induction G as [|[k g] G IH]; csimpl.
  - destruct (decide (d ∈ [])) as [Hin|_]; [|done]. by apply elem_of_nil in Hin.
  - destruct (decide (k = d)) as [->|Hne]; csimpl.
    + rewrite decide_True; [done|]. apply elem_of_cons. by left.
    + rewrite IH. destruct (decide (d ∈ G.*1)) as [Hin|Hnin].
      * rewrite decide_True; [done|]. apply elem_of_cons. by right.
      * rewrite decide_False; [done|]. rewrite elem_of_cons. intros [?|?]; by simplify_eq.
Qed.

Lemma push_group_elem d x G d' g' :
  NoDup G.*1 →
  (d', g') ∈ push_group d x G ↔
  (d' ≠ d ∧ (d', g') ∈ G) ∨
  (d' = d ∧ ∃ g, g' = g ++ [x] ∧ ((d, g) ∈ G ∨ (g = [] ∧ d ∉ G.*1))).
Proof.
  induction G as [|[k g] G IH]; csimpl; intros Hnd.
  - rewrite list_elem_of_singleton. split.
    + intros [= -> ->]. right. split; [done|]. exists []. split; [done|].
      right. split; [done|]. apply not_elem_of_nil.
    + intros [[_ Hin]|(-> & g & -> & [Hin|[-> _]])]; [by apply elem_of_nil in Hin| |done].
      by apply elem_of_nil in Hin.
  - apply NoDup_cons in Hnd as [Hk Hnd]. specialize (IH Hnd).
    destruct (decide (k = d)) as [->|Hne].
    + rewrite !elem_of_cons. split.
      * intros [[= -> ->]|Hin].
        -- right. split; [done|]. exists g. split; [done|]. left. apply elem_of_cons. by left.
        -- left. split; [|by right]. intros ->. apply Hk.
           apply list_elem_of_fmap. by exists (d, g').
      * intros [[Hne [[= ? ?]|Hin]]|(-> & g0 & -> & [Hin|[-> Hnin]])]; [done|by right| |].
        -- apply elem_of_cons in Hin as [[= ->]|Hin]; [by left|].
           destruct Hk. apply list_elem_of_fmap. by exists (d, g0).
        -- destruct Hnin. csimpl. apply elem_of_cons. by left.
    + rewrite !elem_of_cons, IH. split.
      * intros [[= -> ->]|[[Hd Hin]|(-> & g0 & -> & [Hin|[-> Hnin]])]].
        -- left. split; [done|by left].
        -- left. split; [done|by right].
        -- right. split; [done|]. exists g0. split; [done|]. left. apply elem_of_cons. by right.
        -- right. split; [done|]. exists []. split; [done|]. right. split; [done|].
           csimpl. rewrite elem_of_cons. intros [?|?]; by simplify_eq.
      * intros [[Hd [[= -> ->]|Hin]]|(-> & g0 & -> & [Hin|[-> Hnin]])].
        -- by left.
        -- right. left. done.
        -- apply elem_of_cons in Hin as [[= ? ?]|Hin]; [done|].
           right. right. split; [done|]. exists g0. split; [done|]. by left.
        -- right. right. split; [done|]. exists []. split; [done|]. right. split; [done|].
           csimpl in Hnin. rewrite elem_of_cons in Hnin. tauto.
Qed.

Lemma groupSlotsByDate_elem l :
  NoDup (groupSlotsByDate l).*1 ∧
  ∀ d g, (d, g) ∈ groupSlotsByDate l ↔
         g ≠ [] ∧ g = filter (λ x : nat * Slot, s_date x.2 = d) l.
Proof.
  induction l as [|x l [IHnd IH]] using rev_ind.
  - split; [constructor|]. intros d g. unfold groupSlotsByDate. csimpl.
    rewrite elem_of_nil. split; [done|]. by intros [Hne ->].
  - rewrite groupSlotsByDate_snoc. set (G := groupSlotsByDate l) in *.
    set (dx := s_date x.2).
    assert (dx ∉ G.*1 → filter (λ y : nat * Slot, s_date y.2 = dx) l = []) as Hnokey.
    { intros Hnin. destruct (filter _ l) as [|y ys] eqn:Hf; [done|].
      destruct Hnin. apply list_elem_of_fmap. exists (dx, y :: ys). split; [done|].
      apply IH. by rewrite Hf. }
    split.
    + rewrite push_group_keys. destruct (decide (dx ∈ G.*1)); [done|].
      apply NoDup_app. split; [done|]. split; [|apply NoDup_singleton].
      intros k Hk Hk'. apply list_elem_of_singleton in Hk'. by subst.
    + intros d g. rewrite push_group_elem by done. rewrite filter_app, filter_cons, filter_nil.
      destruct (decide (s_date x.2 = d)) as [Hd|Hd]; fold dx in Hd.
      * subst d. split.
        -- intros [[Hne _]|(_ & g0 & -> & [Hin|[-> Hnin]])]; [done| |].
           ++ apply IH in Hin as [_ <-]. split; [|done]. by destruct g0.
           ++ rewrite (Hnokey Hnin). done.
        -- intros [_ ->]. right. split; [done|].
           exists (filter (λ y : nat * Slot, s_date y.2 = dx) l). split; [done|].
           destruct (decide (dx ∈ G.*1)) as [Hin|Hnin].
           ++ left. apply list_elem_of_fmap in Hin as ([k g0] & -> & Hin).
              pose proof Hin as Hin'. apply IH in Hin' as [_ ->]. done.
           ++ right. split; [by apply Hnokey|done].
      * rewrite app_nil_r, IH. split.
        -- intros [[_ ?]|[-> _]]; done.
        -- intros ?. left. split; [by apply not_eq_sym|done].
Qed.

(** X15: [groupSlotsByDate] loses and invents nothing.  Each date has at
    most one group; a date has a group exactly when some slot has that
    date, and the group then holds all the slots of the date, in the order
    in which they came. *)
Theorem groupSlotsByDate_groups (l : list (nat * Slot)) :
  NoDup (groupSlotsByDate l).*1 ∧
  (∀ d g, (d, g) ∈ groupSlotsByDate l ↔
          g ≠ [] ∧ g = filter (λ x : nat * Slot, s_date x.2 = d) l) ∧
  (∀ x, x ∈ l ↔ ∃ d g, (d, g) ∈ groupSlotsByDate l ∧ x ∈ g).
Proof.
  destruct (groupSlotsByDate_elem l) as [Hnd Helem]. split; [done|]. split; [done|].
  intros x. split.
  - intros Hx. exists (s_date x.2), (filter (λ y : nat * Slot, s_date y.2 = s_date x.2) l).
    assert (x ∈ filter (λ y : nat * Slot, s_date y.2 = s_date x.2) l) as Hin
      by (by apply list_elem_of_filter).
    split; [|done]. apply Helem. split; [|done]. intros Hnil. rewrite Hnil in Hin.
    by apply elem_of_nil in Hin.
  - intros (d & g & Hg & Hx). apply Helem in Hg as [_ ->].
    by apply list_elem_of_filter in Hx as [_ Hx].
Qed.

Lemma push_group_sorted d x G :
  StronglySorted Z.lt G.*1 → Forall (λ k, k <= d) G.*1 →
  mjoin (push_group d x G).*2 = mjoin G.*2 ++ [x] ∧
  StronglySorted Z.lt (push_group d x G).*1.
Proof.
  induction G as [|[k g] G IH]; csimpl; intros Hsorted Hle.
  - split; [done|]. repeat constructor.
  - apply StronglySorted_cons in Hsorted as [Hk Hsorted].
    apply Forall_cons in Hle as [Hkd Hle].
    destruct (decide (k = d)) as [->|Hne]; csimpl.
    + destruct G as [|[k' g'] G]; csimpl in *.
      * rewrite !app_nil_r. split; [done|]. repeat constructor.
      * apply Forall_cons in Hk as [Hk _]. apply Forall_cons in Hle as [Hle _]. lia.
    + destruct (IH Hsorted Hle) as [IHj IHs]. rewrite IHj.
      split; [by rewrite (assoc_L (++))|].
      apply StronglySorted_cons. split; [|done].
      rewrite push_group_keys. destruct (decide (d ∈ G.*1)); [done|].
      apply Forall_app. split; [done|]. apply Forall_singleton. lia.
Qed.

(** X16: on a list that is ordered by date, as the listings of the slots
    router are, the groups come out in ascending order of date and, read
    one after the other, give back the list. *)
Theorem groupSlotsByDate_of_sorted (l : list (nat * Slot)) :
  StronglySorted slot_order l →
  mjoin (groupSlotsByDate l).*2 = l ∧ StronglySorted Z.lt (groupSlotsByDate l).*1.
Proof.
  induction l as [|x l IH] using rev_ind; intros Hsorted.
  - split; [done|]. constructor.
  - rewrite groupSlotsByDate_snoc.
    destruct (IH (StronglySorted_app_1_l _ _ _ Hsorted)) as [IHj IHs].
    destruct (push_group_sorted (s_date x.2) x (groupSlotsByDate l)) as [Hj Hs]; [done| |].
    + apply Forall_forall. intros k Hk.
      apply list_elem_of_fmap in Hk as ([k' g] & -> & Hg). csimpl.
      apply (proj2 (groupSlotsByDate_elem l)) in Hg as [Hne ->].
      destruct (filter _ l) as [|y ys] eqn:Hf; [done|].
      assert (y ∈ filter (λ z : nat * Slot, s_date z.2 = k') l) as Hy
        by (rewrite Hf; apply elem_of_cons; by left).
      apply list_elem_of_filter in Hy as [Hdate Hy].
      pose proof (StronglySorted_app_1_elem_of _ _ _ y x Hsorted Hy) as Hord.
      unfold slot_order in Hord. rewrite list_elem_of_singleton in Hord.
      specialize (Hord eq_refl). lia.
    + by rewrite Hj, IHj.
Qed.

Lemma groupSlotsByDate_of_sorted_witness :
  mjoin (groupSlotsByDate (listAvailableSlots (day0 + 5 * hour) None None db_listing)).*2
  = listAvailableSlots (day0 + 5 * hour) None None db_listing ∧
  (groupSlotsByDate (listAvailableSlots (day0 + 5 * hour) None None db_listing)).*1
  = [20148; 20149].
Proof.
  assert (listAvailableSlots (day0 + 5 * hour) None None db_listing =
          [ (4%nat, mkSlot 5 None 20148 36000 39600 available None None);
            (3%nat, mkSlot 2 None 20148 39600 43200 available None None);
            (2%nat, mkSlot 2 None 20149 32400 36000 available None None) ]) as ->
    by (by vm_compute).
  split; [|by vm_compute].
  apply groupSlotsByDate_of_sorted.
  repeat constructor; unfold slot_order; csimpl; lia.
Defined.

(** ** The FacultySlots page: what the form sends is what is stored *)

Lemma toTimeOnly_wall_clock tz t d m :
  t + tz t = d * 86400000 + m * 60000 → 0 <= m < 1440 →
  toTimeOnly tz t = m * 60.
Proof.
  intros Hwall Hm. unfold toTimeOnly. rewrite Hwall.
  replace (d * 86400000 + m * 60000) with ((d * 86400 + m * 60) * 1000) by lia.
  rewrite Z.div_mul by lia.
  replace (d * 86400 + m * 60) with (m * 60 + d * 86400) by lia.
  rewrite Z.mod_add by lia. apply Z.mod_small. lia.
Qed.

(** X17: for a request posted by the form (one date, two times of day, in
    a zone whose offset is the same at both instants), the range check on
    the instants is the check on the two times of day, and an accepted
    slot is stored with the date and the times of the form, whatever the
    server's zone; its end is after its start. *)
Theorem form_request_stored_as_entered (tz : Z → Z) (caller : AuthUser)
    (form : SlotForm) (req : SlotRequest) (db : DB) :
  posted_by_form tz form req →
  0 <= form_start_time form < 1440 → 0 <= form_end_time form < 1440 →
  tz (start_time req) = tz (end_time req) →
  (form_end_time form <= form_start_time form →
   createSlot tz caller req db = (Err InvalidRange, db)) ∧
  (∀ id slot db1, createSlot tz caller req db = (Ok (id, slot), db1) →
     slot = mkSlot (au_id caller) None (form_date form)
                   (form_start_time form * 60) (form_end_time form * 60)
                   available None None ∧
     s_start_time slot < s_end_time slot).
Proof.
  intros (Hdate & Hstart & Hend) Hs He Htz. split.
  - intros Hle. unfold createSlot. rewrite bool_decide_eq_true_2; [done|]. lia.
  - intros id slot db1 Hc. apply createSlot_Ok in Hc as (Hrange & _ & _ & -> & _).
    rewrite (toTimeOnly_wall_clock tz _ _ _ Hstart Hs),
            (toTimeOnly_wall_clock tz _ _ _ Hend He).
    unfold toDateOnly. rewrite Hdate, Z.div_mul by lia. split; [done|]. simpl. lia.
Qed.

Lemma form_request_stored_as_entered_witness :
  createSlot utc fac slot_9_10 db_people
  = (Ok (0%nat, mkSlot 2 None 20148 (540 * 60) (600 * 60) available None None), db_one_slot).
Proof.
  destruct (form_request_stored_as_entered utc fac (mkSlotForm 20148 540 600) slot_9_10
              db_people) as [_ Hstored]; [by vm_compute|simpl; lia|simpl; lia|done|].
  assert (createSlot utc fac slot_9_10 db_people
          = (Ok (0%nat, mkSlot 2 None 20148 32400 36000 available None None), db_one_slot))
    as Hc by (by vm_compute).
  destruct (Hstored _ _ _ Hc) as [Heq _]. rewrite Hc. by rewrite Heq.
Defined.

(** ** The fallback link and the random source *)

Lemma fill_segment_draws rnd rnd' n : ∀ k seg,
  (∀ i, (k ≤ i < k + n)%nat → rnd i `mod` 2 ^ 53 = rnd' i `mod` 2 ^ 53) →
  fill_segment rnd n k seg = fill_segment rnd' n k seg.
Proof.
  induction n as [|n IH]; intros k seg Hsame; [done|].
  cbn [fill_segment]. unfold random_below. rewrite (Hsame k) by lia.
  apply IH. intros i Hi. apply Hsame. lia.
Qed.

(** X18: the fallback link takes ten draws from the random source, three,
    four and three, and nothing else decides it; it is 36 characters
    long. *)
Theorem fallback_link_ten_draws (rnd rnd' : nat → Z) :
  String.length (generateFallbackMeetLink rnd) = 36%nat ∧
  ((∀ i, (i < 10)%nat → rnd i `mod` 2 ^ 53 = rnd' i `mod` 2 ^ 53) →
   generateFallbackMeetLink rnd = generateFallbackMeetLink rnd').
Proof.
  split.
  - destruct (generateFallbackMeetLink_form rnd)
      as (a & b & c & -> & [Ha _] & [Hb _] & [Hc _]).
    rewrite !string_length_app, Ha, Hb, Hc. done.
  - intros Hsame. unfold generateFallbackMeetLink.
    change (fill_segments rnd 3 0 0 [])
      with [fill_segment rnd 3 0 ""; fill_segment rnd 4 3 ""; fill_segment rnd 3 7 ""].
    change (fill_segments rnd' 3 0 0 [])
      with [fill_segment rnd' 3 0 ""; fill_segment rnd' 4 3 ""; fill_segment rnd' 3 7 ""].
    rewrite (fill_segment_draws rnd rnd' 3 0), (fill_segment_draws rnd rnd' 4 3),
            (fill_segment_draws rnd rnd' 3 7); [done|intros i Hi; apply Hsame; lia..].
Qed.

Lemma fallback_link_ten_draws_witness :
  generateFallbackMeetLink (λ k, Z.of_nat k * 2 ^ 50)
  = generateFallbackMeetLink (λ k, if decide (k < 10)%nat then Z.of_nat k * 2 ^ 50 else 7).
Proof.
  apply (fallback_link_ten_draws (λ k, Z.of_nat k * 2 ^ 50)
           (λ k, if decide (k < 10)%nat then Z.of_nat k * 2 ^ 50 else 7)).
  intros i Hi. by rewrite decide_True.
Defined.

(** ** The listing of the faculties *)

Lemma elem_of_listFaculties name_le `{!RelDecision name_le} db pr :
  pr ∈ listFaculties name_le db ↔
  ∃ id u, users db !! id = Some u ∧ u_role u = faculty ∧
          pr = mkProfile id (u_name u) (u_email u) (u_picture u).
Proof.
  unfold listFaculties. rewrite merge_sort_Permutation, list_elem_of_fmap. split.
  - intros ([id u] & -> & Hin). apply elem_of_map_to_list in Hin.
    apply map_lookup_filter_Some in Hin as [Hu Hrole]. by exists id, u.
  - intros (id & u & Hu & Hrole & ->). exists (id, u). split; [done|].
    apply elem_of_map_to_list. by apply map_lookup_filter_Some.
Qed.

(** X19: the faculties listing holds exactly one profile (id, name, email,
    picture) for every identity whose role is faculty and none for any
    other identity, ordered by name in the order of the store. *)
Theorem listFaculties_exact (name_le : relation string) `{!RelDecision name_le}
    (db : DB) :
  Total name_le → Transitive name_le →
  (∀ pr, pr ∈ listFaculties name_le db ↔
         ∃ id u, users db !! id = Some u ∧ u_role u = faculty ∧
                 pr = mkProfile id (u_name u) (u_email u) (u_picture u)) ∧
  NoDup (listFaculties name_le db) ∧
  StronglySorted (by_name name_le) (listFaculties name_le db).
Proof.
  intros Htotal Htrans. split; [intros pr; apply elem_of_listFaculties|]. split.
  - unfold listFaculties. rewrite merge_sort_Permutation.
    apply NoDup_fmap_2_strong; [|apply NoDup_map_to_list].
    intros [i u] [j v] Hi Hj [= -> Hn He Hp]. f_equal.
    apply elem_of_map_to_list in Hi, Hj. rewrite Hi in Hj. by simplify_eq.
  - unfold listFaculties. apply StronglySorted_merge_sort.
    + intros a b c. unfold by_name. apply Htrans.
    + intros a b. unfold by_name. apply Htotal.
Qed.

Lemma listFaculties_exact_witness :
  listFaculties String.le db_people = [mkProfile 2 "F" "f@x.com" None] ∧
  StronglySorted (by_name String.le) (listFaculties String.le db_people).
Proof.
  split; [by vm_compute|].
  apply (listFaculties_exact String.le db_people); apply _.
Defined.

(** X20: a role change shows in the faculties listing at once: after a
    successful change of a user's role by id, the user's profile is in the
    listing exactly when the new role is faculty. *)
Theorem role_change_shows_in_faculties (name_le : relation string)
    `{!RelDecision name_le} (caller : AuthUser) (userId role : string)
    (db db' : DB) (id : nat) (u : User) :
  updateUserRole caller userId role db = (Ok (id, u), db') →
  mkProfile id (u_name u) (u_email u) (u_picture u) ∈ listFaculties name_le db' ↔
  role = "faculty".
Proof.
  rewrite updateUserRole_eq.
  destruct (role_of_string role) as [r|] eqn:Hr; [|done].
  destruct (decide (userId = uuid_out (au_id caller))); [done|].
  destruct (uuid_in userId) as [k|]; [|done].
  destruct (users db !! k) as [target|] eqn:Ht; [|done].
  intros [= <- <- <-]. rewrite elem_of_listFaculties. simpl.
  assert (r = faculty ↔ role = "faculty") as <-.
  { unfold role_of_string in Hr. repeat case_decide; simplify_eq; split; done. }
  split.
  - intros (id & u & Hu & Hrole & [= <- _ _ _]).
    rewrite lookup_alter_eq, Ht in Hu. simpl in Hu. injection Hu as <-. exact Hrole.
  - intros ->. exists k, (set_role faculty target).
    by rewrite lookup_alter_eq, Ht.
Qed.

Lemma role_change_shows_in_faculties_witness :
  mkProfile 3 "S" "s@x.com" None
    ∈ listFaculties String.le (updateUserRole root (uuid_out 3) "faculty" db_people).2 ∧
  mkProfile 2 "F" "f@x.com" None
    ∉ listFaculties String.le (updateUserRole root (uuid_out 2) "scholar" db_people).2.
Proof.
  split.
  - apply (role_change_shows_in_faculties String.le root (uuid_out 3) "faculty" db_people
             (updateUserRole root (uuid_out 3) "faculty" db_people).2 3
             (mkUser "s@x.com" "S" None (Some "g-s") faculty 0)); by vm_compute.
  - intros Hin.
    apply (role_change_shows_in_faculties String.le root (uuid_out 2) "scholar" db_people
             (updateUserRole root (uuid_out 2) "scholar" db_people).2 2
             (mkUser "f@x.com" "F" None (Some "g-f") scholar 0)) in Hin; [done|].
    by vm_compute.
Defined.

(** ** The role stores of the running service *)

(** X21: whatever requests have been served since the store was empty,
    logins, role changes and slot requests in any order, allowed or
    refused, every identity has a role assignment for its email, the
    assignment holds the identity's own role, and no two identities share
    an email. *)
Theorem served_identities_have_synced_roles (tz : Z → Z) (rqs : list Request) :
  let db := serve_all tz rqs empty_db in
  (∀ id u, users db !! id = Some u → user_roles db !! u_email u = Some (u_role u)) ∧
  (∀ i j a b, users db !! i = Some a → users db !! j = Some b →
     u_email a = u_email b → i = j).
Proof.
  intros db. destruct (served_store_invariant tz rqs) as (Huniq & Hhave & Hsync).
  fold db in Huniq, Hhave, Hsync. split.
  - intros id u Hu. destruct (Hhave id u Hu) as [r Hr].
    rewrite Hr. f_equal. symmetry. by apply (Hsync id u Hu).
  - intros i j a b Hi Hj Hab. by apply (Huniq i a Hi j b Hj).
Qed.
